(** * Batch patching of texts: a model of [server/api/text/text.controller.js]

    The controller receives a list of patch operations for one text, runs
    them through [async.mapLimit] with a ceiling of ten, counts the outcomes
    in a status object that is also stored in an expiring cache, and finally
    publishes one socket message per outcome.

    The development follows the file from top to bottom: JavaScript values,
    the helpers of the two patch handlers, the socket message builders, the
    execution of [editText] as a machine that reacts to the replies of the
    store and to the passing of time, and [patchStatus]. *)

From Stdlib Require Import Ascii.
From stdpp Require Import gmap strings list pretty.

(** ** JavaScript values

    Request bodies and store results are JSON-like values.  Numbers are the
    integer-valued ones; an object is its list of own properties, the first
    binding of a key being the one that is read. *)

Local Unset Elimination Schemes.

Inductive JSValue : Type :=
| JUndefined
| JNull
| JBool (b : bool)
| JNum (n : Z)
| JStr (s : string)
| JArr (elems : list JSValue)
| JObj (fields : list (string * JSValue)).

Local Set Elimination Schemes.

(** [if (v)] *)
Definition truthy (v : JSValue) : bool :=
  match v with
  | JUndefined | JNull => false
  | JBool b => b
  | JNum n => negb (n =? 0)%Z
  | JStr s => negb (String.eqb s "")
  | JArr _ | JObj _ => true
  end.

Fixpoint assoc (k : string) (fields : list (string * JSValue)) : option JSValue :=
  match fields with
  | [] => None
  | (k', v) :: rest => if String.eqb k k' then Some v else assoc k rest
  end.

(** [v.k] for the property names the controller reads.  [None] stands for
    the TypeError raised when [v] is [undefined] or [null]. *)
Definition get (v : JSValue) (k : string) : option JSValue :=
  match v with
  | JUndefined | JNull => None
  | JObj fields => Some (default JUndefined (assoc k fields))
  | JArr elems =>
      Some (if String.eqb k "length" then JNum (Z.of_nat (length elems)) else JUndefined)
  | JStr s =>
      Some (if String.eqb k "length" then JNum (Z.of_nat (String.length s)) else JUndefined)
  | JBool _ | JNum _ => Some JUndefined
  end.

(** [Object.prototype.hasOwnProperty.call(v, k)], for names that are not
    array indices. *)
Definition hasOwn (v : JSValue) (k : string) : bool :=
  match v with
  | JObj fields => bool_decide (is_Some (assoc k fields))
  | JArr _ | JStr _ => String.eqb k "length"
  | _ => false
  end.

(** Whether [v] has the nested property [path]: each name of the path is
    an own property of the value reached so far. *)
Fixpoint hasDeep (v : JSValue) (path : list string) : bool :=
  match path with
  | [] => true
  | k :: rest =>
      hasOwn v k &&
      match rest with
      | [] => true
      | _ => match get v k with Some w => hasDeep w rest | None => false end
      end
  end.

(** lodash's [_.has(v, 'a.b')], the path given by its names: true when [v]
    has an own property whose name is the whole string "a.b", and
    otherwise when it has the nested property. *)
Definition has (v : JSValue) (path : list string) : bool :=
  hasOwn v (String.concat "." path) || hasDeep v path.

(** [v === 'literal'] *)
Definition is_string (v : JSValue) (literal : string) : bool :=
  match v with
  | JStr s => String.eqb s literal
  | _ => false
  end.

(** ** Numbers as strings

    [JNum n] stands for the Number value of the integer [n]: the nearest
    double, ties to even.  A number is printed with the fewest digits that
    give back the same double, followed by zeros up to 21 digits and in
    exponent form beyond. *)

(** The double nearest to a non-negative integer, as an integer. *)
Definition roundToDouble (n : Z) : Z :=
  if (n <? 2 ^ 53)%Z then n else
  let e := (Z.log2 n - 52)%Z in
  let q := (n / 2 ^ e)%Z in
  let r := (n mod 2 ^ e)%Z in
  let half := (2 ^ (e - 1))%Z in
  let q' :=
    if (r <? half)%Z then q
    else if (half <? r)%Z then (q + 1)%Z
    else if Z.even q then q else (q + 1)%Z in
  (q' * 2 ^ e)%Z.

(** The value [s * 10 ^ (n - k)] of [k] digits [s] with [n] digits before
    the point. *)
Definition scaled (k : nat) (c : Z * nat) : Z :=
  (c.1 * 10 ^ Z.of_nat (c.2 - k))%Z.

(** The [k]-digit decimal that gives back the double [x] of [nd] digits, if
    there is one: the closest to [x], the even one on a tie. *)
Definition shortestAt (x : Z) (nd k : nat) : option (Z * nat) :=
  let s0 := (x / 10 ^ Z.of_nat (nd - k))%Z in
  let lo := (s0, nd) in
  let hi :=
    if (s0 + 1 <? 10 ^ Z.of_nat k)%Z then ((s0 + 1)%Z, nd)
    else ((10 ^ Z.of_nat (k - 1))%Z, S nd) in
  let ok c := (roundToDouble (scaled k c) =? x)%Z in
  match ok lo, ok hi with
  | true, false => Some lo
  | false, true => Some hi
  | false, false => None
  | true, true =>
      let dlo := (x - scaled k lo)%Z in
      let dhi := (scaled k hi - x)%Z in
      if (dlo <? dhi)%Z then Some lo
      else if (dhi <? dlo)%Z then Some hi
      else if Z.even s0 then Some lo else Some hi
  end.

(** The digits, the number of digits before the point and the number of
    digits given, trying [k], [k + 1], ... *)
Fixpoint shortest (x : Z) (nd fuel k : nat) : Z * nat * nat :=
  match fuel with
  | O => (x, nd, nd)
  | S fuel' =>
      match shortestAt x nd k with
      | Some (s, n) => (s, n, k)
      | None => shortest x nd fuel' (S k)
      end
  end.

Fixpoint zeros (n : nat) : string :=
  match n with
  | O => ""
  | S n' => "0" +:+ zeros n'
  end.

(** [String(x)] for a positive double [x]. *)
Definition doubleToString (x : Z) : string :=
  if (2 ^ 1024 <=? x)%Z then "Infinity" else
  let nd := String.length (pretty x) in
  let '(s, n, k) := shortest x nd nd 1 in
  if (n <=? 21)%nat then pretty s +:+ zeros (n - k)
  else
    match pretty s with
    | String d rest =>
        String d (if String.eqb rest "" then "" else "." +:+ rest)
          +:+ "e+" +:+ pretty (n - 1)
    | EmptyString => ""
    end.

(** [String(n)] *)
Definition numberToString (n : Z) : string :=
  if (n =? 0)%Z then "0"
  else if (n <? 0)%Z then "-" +:+ doubleToString (roundToDouble (- n))
  else doubleToString (roundToDouble n).

(** The string a value contributes to a concatenation ([name += v]), and
    the string of an element in the [join] of an array.  [None] stands for
    the TypeError of an object whose own [toString] is not a function,
    which is the case of every own [toString] of a JSON-like value. *)
Fixpoint toString (v : JSValue) : option string :=
  match v with
  | JUndefined => Some "undefined"
  | JNull => Some "null"
  | JBool true => Some "true"
  | JBool false => Some "false"
  | JNum n => Some (numberToString n)
  | JStr s => Some s
  | JArr elems =>
      (fix join (l : list JSValue) : option string :=
         match l with
         | [] => Some ""
         | x :: rest =>
             match
               match x with
               | JUndefined | JNull => Some ""
               | _ => toString x
               end
             with
             | None => None
             | Some a =>
                 match rest with
                 | [] => Some a
                 | _ =>
                     match join rest with
                     | None => None
                     | Some b => Some (a +:+ "," +:+ b)
                     end
                 end
             end
         end) elems
  | JObj fields =>
      if bool_decide (is_Some (assoc "toString" fields)) then None
      else Some "[object Object]"
  end.

(** ** Errors

    [dberrors] lives outside this file.  [invalid m] is the error built by
    [dberrors.invalid(m)]; [reported] is any error the store hands to a
    callback, with the three fields that [PatchError] copies. *)

Inductive DatabaseError : Type :=
| invalid (message : string)
| reported (category message : string) (code : Z).

(** What [mapLimit] collects for one operation: the store's result, or a
    [PatchError] that carries the operation. *)
Inductive Outcome : Type :=
| Result (result : JSValue)
| PatchError (databaseError : DatabaseError) (operation : JSValue).

Definition is_error (o : Outcome) : bool :=
  match o with PatchError _ _ => true | Result _ => false end.

(** ** The patch handlers *)

Definition sanitizeMetadata (value : JSValue) : JSValue :=
  if truthy value then
    match get value "value", get value "metadata" with
    | Some v, Some m =>
        if truthy v || truthy m
        then JObj [("value", v); ("metadata", m)]
        else JNull
    | _, _ => JNull
    end
  else JNull.

Definition getIds (cls : JSValue) : JSValue :=
  if truthy cls then
    match get cls "id" with
    | Some (JStr s) => JStr s
    | _ => JUndefined
    end
  else JUndefined.

(** [values.map(getIds).filter(makeDense)]; calling [map] on anything but
    an array raises a TypeError. *)
Definition getClassesToPatch (values : JSValue) : option (list JSValue) :=
  match values with
  | JArr elems => Some (List.filter truthy (List.map getIds elems))
  | _ => None
  end.

(** The calls a handler can make on the store. *)
Inductive StoreCall : Type :=
| addClassesToText (tenantid textid : string) (classes : list JSValue)
| removeClassesFromText (tenantid textid : string) (classes : list JSValue)
| updateTextMetadata (tenantid textid : string) (metadata : JSValue).

(** What a handler does before it returns: raise, call its callback with an
    error, or pass the callback on to the store. *)
Inductive Action : Type :=
| Raise
| Callback (err : DatabaseError)
| Store (call : StoreCall).

(** [patchoperation.value.length], read after [getClassesToPatch] went
    through, hence on an array. *)
Definition valueLength (value : JSValue) : nat :=
  match value with JArr elems => length elems | _ => 0 end.

Definition patchTextClasses (tenantid textid : string) (patchoperation : JSValue) : Action :=
  match get patchoperation "op", get patchoperation "value" with
  | Some op, Some value =>
      if is_string op "add" then
        match getClassesToPatch value with
        | None => Raise
        | Some tenantsToAdd =>
            if negb (length tenantsToAdd =? valueLength value)%nat
            then Callback (invalid "Invalid value array")
            else Store (addClassesToText tenantid textid tenantsToAdd)
        end
      else if is_string op "remove" then
        match getClassesToPatch value with
        | None => Raise
        | Some tenantsToRemove =>
            if negb (length tenantsToRemove =? valueLength value)%nat
            then Callback (invalid "Invalid value array")
            else Store (removeClassesFromText tenantid textid tenantsToRemove)
        end
      else Callback (invalid "Unsupported operation")
  | _, _ => Raise
  end.

Definition patchTextMetadata (tenantid textid : string) (patchoperation : JSValue) : Action :=
  match get patchoperation "op", get patchoperation "value" with
  | Some op, Some value =>
      if is_string op "replace" then
        let metadata := sanitizeMetadata value in
        if negb (truthy metadata)
        then Callback (invalid "Invalid value")
        else Store (updateTextMetadata tenantid textid metadata)
      else Callback (invalid "Unsupported operation")
  | _, _ => Raise
  end.

(** ** Socket messages *)

(** [None] when the conversion of [operation.op] to a string raises. *)
Definition socketMessageNameBuilder (operation : JSValue) : option string :=
  let name := "" in
  let name :=
    name +:+
    (if truthy operation then
       match get operation "path" with
       | Some (JStr path) =>
           if truthy (JStr path) then
             match path with
             | String "/"%char rest => rest
             | _ => path
             end
           else "unknown"
       | _ => "unknown"
       end
     else "unknown") in
  let name := name +:+ ":" in
  op ←
    (if truthy operation then
       match get operation "op" with
       | Some op => if truthy op then toString op else Some "unknown"
       | None => Some "unknown"
       end
     else Some "unknown");
  Some (name +:+ op).

(** The payload object; a field that was not assigned is [None]. *)
Record Response : Type := {
  resp_id : string;
  resp_error : option Outcome;
  resp_value : option JSValue;
  resp_classes : option JSValue
}.

(** The outer [option] is the TypeError of reading [data.classes] on a
    result that is [undefined] or [null], or [data.metadata.value] on a
    result without [metadata]; [Some None] is [return null].  A
    [PatchError] has [operation] and the fields of the error as its own
    properties, none with a dot in its name, so that [_.has] walks the
    path below [operation]. *)
Definition socketResponseBuilder (textid : string) (data : Outcome) : option (option Response) :=
  match data with
  | PatchError _ operation =>
      if hasDeep operation ["value"; "value"] then
        v ← get operation "value";
        vv ← get v "value";
        Some (Some {| resp_id := textid; resp_error := Some data;
                      resp_value := Some vv; resp_classes := None |})
      else if hasDeep operation ["value"] then
        v ← get operation "value";
        Some (Some {| resp_id := textid; resp_error := Some data;
                      resp_value := None; resp_classes := Some v |})
      else
        Some (Some {| resp_id := textid; resp_error := Some data;
                      resp_value := None; resp_classes := None |})
  | Result result =>
      classes ← get result "classes";
      if truthy classes && truthy (default JUndefined (get classes "length")) then
        Some (Some {| resp_id := textid; resp_error := None;
                      resp_value := None; resp_classes := Some classes |})
      else if has result ["metadata"; "value"] then
        m ← get result "metadata";
        v ← get m "value";
        Some (Some {| resp_id := textid; resp_error := None;
                      resp_value := Some v; resp_classes := None |})
      else Some None
  end.

(** [result.operation] as the final callback reads it. *)
Definition operationOf (data : Outcome) : option JSValue :=
  match data with
  | PatchError _ operation => Some operation
  | Result result => get result "operation"
  end.

(** ** The status object and the cache *)

Inductive STATUS : Type := RUNNING | COMPLETE | ERROR.

Record PatchStatus : Type := {
  status : STATUS;
  success : nat;
  error : nat
}.

(** Milliseconds. *)
Definition MINUTE : N := 1000 * 60.

(** An entry of the cache: the address of the stored object (the cache
    keeps the object itself, not a copy) and the instant it expires. *)
Record CacheEntry : Type := {
  value : nat;
  expire : N
}.

(** Modelled from the spec: [put] of the memory-cache package, which is not
    part of the sources.  It inserts or overwrites the entry and starts its
    time-to-live at the instant of the call. *)
Definition cache_put (key : string) (v : nat) (time : N) (now : N)
    (c : gmap string CacheEntry) : gmap string CacheEntry :=
  <[key := {| value := v; expire := now + time |}]> c.

(** Modelled from the spec: [get] of the memory-cache package.  It returns
    the stored object, or nothing when the key is absent or its time-to-live
    has elapsed. *)
Definition cache_get (key : string) (now : N) (c : gmap string CacheEntry) : option nat :=
  match c !! key with
  | Some e => if (now <? expire e)%N then Some (value e) else None
  | None => None
  end.

(** ** The execution of one batch

    [now], [heap] and [cache] are the process: the clock, the objects and
    the cache.  The remaining fields are what [editText] and [mapLimit] keep
    for one request. *)
Record Exec : Type := {
  now : N;
  heap : gmap nat PatchStatus;
  cache : gmap string CacheEntry;
  details : nat;                      (* address of [var details] *)
  queue : list JSValue;               (* operations not yet started *)
  next : nat;                         (* index of the head of [queue] *)
  inflight : gmap nat JSValue;        (* started, callback held by the store *)
  raised : nat;                       (* started, left by an exception *)
  results : list (option Outcome);    (* the array [data]; [None] is a hole *)
  errored : bool;                     (* an error was passed to [nextop] *)
  finished : bool;                    (* [handlePatchResponse] has run *)
  calls : list StoreCall;             (* calls made on the store, in order *)
  sent : list (string * Response)     (* [socketUtil.send], in order *)
}.

Definition with_now (t : N) (s : Exec) : Exec :=
  {| now := t; heap := heap s; cache := cache s; details := details s;
     queue := queue s; next := next s; inflight := inflight s; raised := raised s;
     results := results s; errored := errored s; finished := finished s;
     calls := calls s; sent := sent s |}.

Definition with_heap (h : gmap nat PatchStatus) (s : Exec) : Exec :=
  {| now := now s; heap := h; cache := cache s; details := details s;
     queue := queue s; next := next s; inflight := inflight s; raised := raised s;
     results := results s; errored := errored s; finished := finished s;
     calls := calls s; sent := sent s |}.

Definition with_cache (c : gmap string CacheEntry) (s : Exec) : Exec :=
  {| now := now s; heap := heap s; cache := c; details := details s;
     queue := queue s; next := next s; inflight := inflight s; raised := raised s;
     results := results s; errored := errored s; finished := finished s;
     calls := calls s; sent := sent s |}.

Definition with_queue (q : list JSValue) (n : nat) (s : Exec) : Exec :=
  {| now := now s; heap := heap s; cache := cache s; details := details s;
     queue := q; next := n; inflight := inflight s; raised := raised s;
     results := results s; errored := errored s; finished := finished s;
     calls := calls s; sent := sent s |}.

Definition with_inflight (m : gmap nat JSValue) (s : Exec) : Exec :=
  {| now := now s; heap := heap s; cache := cache s; details := details s;
     queue := queue s; next := next s; inflight := m; raised := raised s;
     results := results s; errored := errored s; finished := finished s;
     calls := calls s; sent := sent s |}.

Definition with_raised (n : nat) (s : Exec) : Exec :=
  {| now := now s; heap := heap s; cache := cache s; details := details s;
     queue := queue s; next := next s; inflight := inflight s; raised := n;
     results := results s; errored := errored s; finished := finished s;
     calls := calls s; sent := sent s |}.

Definition with_results (r : list (option Outcome)) (s : Exec) : Exec :=
  {| now := now s; heap := heap s; cache := cache s; details := details s;
     queue := queue s; next := next s; inflight := inflight s; raised := raised s;
     results := r; errored := errored s; finished := finished s;
     calls := calls s; sent := sent s |}.

Definition with_errored (s : Exec) : Exec :=
  {| now := now s; heap := heap s; cache := cache s; details := details s;
     queue := queue s; next := next s; inflight := inflight s; raised := raised s;
     results := results s; errored := true; finished := finished s;
     calls := calls s; sent := sent s |}.

Definition with_finished (s : Exec) : Exec :=
  {| now := now s; heap := heap s; cache := cache s; details := details s;
     queue := queue s; next := next s; inflight := inflight s; raised := raised s;
     results := results s; errored := errored s; finished := true;
     calls := calls s; sent := sent s |}.

Definition with_calls (l : list StoreCall) (s : Exec) : Exec :=
  {| now := now s; heap := heap s; cache := cache s; details := details s;
     queue := queue s; next := next s; inflight := inflight s; raised := raised s;
     results := results s; errored := errored s; finished := finished s;
     calls := l; sent := sent s |}.

Definition with_sent (l : list (string * Response)) (s : Exec) : Exec :=
  {| now := now s; heap := heap s; cache := cache s; details := details s;
     queue := queue s; next := next s; inflight := inflight s; raised := raised s;
     results := results s; errored := errored s; finished := finished s;
     calls := calls s; sent := l |}.

(** [details.success++], [details.error++], [details.status = st]: writes
    to the object, seen by every holder of its address. *)
Definition incr_success (d : PatchStatus) : PatchStatus :=
  {| status := status d; success := S (success d); error := error d |}.

Definition incr_error (d : PatchStatus) : PatchStatus :=
  {| status := status d; success := success d; error := S (error d) |}.

Definition set_status (st : STATUS) (d : PatchStatus) : PatchStatus :=
  {| status := st; success := success d; error := error d |}.

Definition update_details (f : PatchStatus → PatchStatus) (s : Exec) : Exec :=
  with_heap (alter f (details s) (heap s)) s.

(** [cache.put(patchid, details, 5 * MINUTE)] *)
Definition put_details (patchid : string) (s : Exec) : Exec :=
  with_cache (cache_put patchid (details s) (5 * MINUTE) (now s) (cache s)) s.

(** The limit passed to [mapLimit]. *)
Definition limit : nat := 10.

(** Operations that hold one of the [limit] slots. *)
Definition running (s : Exec) : nat := size (inflight s) + raised s.

(** The body of [data.forEach]: stops at the first TypeError. *)
Fixpoint forEach (textid : string) (data : list (option Outcome)) : list (string * Response) :=
  match data with
  | [] => []
  | None :: rest => forEach textid rest
  | Some result :: rest =>
      match socketResponseBuilder textid result with
      | None => []
      | Some None => forEach textid rest
      | Some (Some response) =>
          match operationOf result ≫= socketMessageNameBuilder with
          | None => []
          | Some name => ("text:update:" +:+ name, response) :: forEach textid rest
          end
      end
  end.

Section Request.

(** [req.params.tenantid], [req.params.textid] and the value of
    [uuid.v1()]. *)
Variables tenantid textid patchid : string.

(** The final callback of [mapLimit]; it runs once. *)
Definition handlePatchResponse (err : option DatabaseError) (s : Exec) : Exec :=
  if finished s then s else
  let s := with_finished s in
  let s := update_details (set_status (match err with Some _ => ERROR | None => COMPLETE end)) s in
  let s := put_details patchid s in
  with_sent (sent s ++ forEach textid (results s)) s.

(** [handleResult], the function returned by [operationHandler]: the new
    state and the two arguments it passes to [callback]. *)
Definition operationHandler (patchoperation : JSValue)
    (err : option DatabaseError) (result : JSValue) (s : Exec)
    : Exec * (option DatabaseError * Outcome) :=
  let '(s, output) :=
    match err with
    | Some e => (update_details incr_error s, PatchError e patchoperation)
    | None => (update_details incr_success s, Result result)
    end in
  (put_details patchid s, (None, output)).

(** Modelled from the spec: the callback [mapLimit] hands to the iterator
    for item [i].  It stores the value in the result array; an error ends
    the batch at once through the final callback. *)
Definition nextop (i : nat) (args : option DatabaseError * Outcome) (s : Exec) : Exec :=
  let s := with_results (<[i := Some args.2]> (results s)) s in
  match args.1 with
  | Some e => handlePatchResponse (Some e) (with_errored s)
  | None => s
  end.

(** What the iterator does with the [Action] of a handler whose callback
    is [getCallback()]. *)
Definition perform (i : nat) (patchoperation : JSValue) (a : Action) (s : Exec) : option Exec :=
  match a with
  | Raise => None
  | Callback err =>
      let '(s, args) := operationHandler patchoperation (Some err) JUndefined s in
      Some (nextop i args s)
  | Store call =>
      Some (with_calls (calls s ++ [call])
              (with_inflight (<[i := patchoperation]> (inflight s)) s))
  end.

(** The iterator [applyPatch] for item [i]; [None] when it raises. *)
Definition applyPatch (i : nat) (patchoperation : JSValue) (s : Exec) : option Exec :=
  path ← get patchoperation "path";
  if is_string path "/classes" then
    perform i patchoperation (patchTextClasses tenantid textid patchoperation) s
  else if is_string path "/metadata" then
    perform i patchoperation (patchTextMetadata tenantid textid patchoperation) s
  else
    let s := update_details incr_error s in
    Some (nextop i (None, PatchError (invalid "Unsupported operation") patchoperation) s).

(** Modelled from the spec: the loop of [mapLimit].  It starts queued
    operations while fewer than [limit] are running; an operation that
    raises keeps its slot, since nothing gives it back; when the queue is
    empty and nothing runs, the final callback is called. *)
Fixpoint replenish (todo : list JSValue) (s : Exec) : Exec :=
  match todo with
  | [] =>
      let s := with_queue [] (next s) s in
      if (running s =? 0)%nat then handlePatchResponse None s else s
  | patchoperation :: rest =>
      if (running s <? limit)%nat then
        let i := next s in
        let s := with_queue rest (S i) s in
        match applyPatch i patchoperation s with
        | None => with_raised (S (raised s)) s
        | Some s' => if errored s' then s' else replenish rest s'
        end
      else with_queue todo (next s) s
  end.

(** [editText] up to the call of [mapLimit]: the status object is
    allocated and put in the cache.  The arguments are the clock, the
    objects and the cache of the process, and the operations that
    [requests.verifyObjectsList] returned. *)
Definition created (now0 : N) (heap0 : gmap nat PatchStatus)
    (cache0 : gmap string CacheEntry) (patchoperations : list JSValue) : Exec :=
  let a := fresh (dom heap0) in
  put_details patchid
    {| now := now0;
       heap := <[a := {| status := RUNNING; success := 0; error := 0 |}]> heap0;
       cache := cache0; details := a;
       queue := patchoperations; next := 0; inflight := ∅; raised := 0;
       results := replicate (length patchoperations) None;
       errored := false; finished := false; calls := []; sent := [] |}.

Definition editText (now0 : N) (heap0 : gmap nat PatchStatus)
    (cache0 : gmap string CacheEntry) (patchoperations : list JSValue) : Exec :=
  replenish patchoperations (created now0 heap0 cache0 patchoperations).

(** What happens after [editText] has returned: the store calls back for
    item [i], or time passes.  The store calls each callback once, so a
    reply is accepted only for an operation that waits for one. *)
Inductive Input : Type :=
| Reply (i : nat) (err : option DatabaseError) (result : JSValue)
| Elapse (dt : N).

(** One reaction; [None] when the store answers an operation that is not
    waiting for an answer. *)
Definition step (e : Input) (s : Exec) : option Exec :=
  match e with
  | Reply i err result =>
      patchoperation ← inflight s !! i;
      let s := with_inflight (delete i (inflight s)) s in
      let '(s, args) := operationHandler patchoperation err result s in
      let s := nextop i args s in
      Some (if errored s then s else replenish (queue s) s)
  | Elapse dt => Some (with_now (now s + dt)%N s)
  end.

Fixpoint run (es : list Input) (s : Exec) : option Exec :=
  match es with
  | [] => Some s
  | e :: rest => s' ← step e s; run rest s'
  end.

(** [patchStatus]: the JSON body of the 200 response, or [None] for the
    404. *)
Definition patchStatus (id : string) (s : Exec) : option PatchStatus :=
  a ← cache_get id (now s) (cache s);
  heap s !! a.

End Request.

(** * Properties *)

(** ** The class handler *)

Lemma getIds_truthy cls :
  truthy (getIds cls) = true ↔ ∃ s, get cls "id" = Some (JStr s) ∧ s ≠ "" ∧ truthy cls = true.
Proof.
  unfold getIds. destruct (truthy cls) eqn:Ht.
  - destruct (get cls "id") as [[| | | |s| |]|] eqn:Hid; simpl;
      try (split; [discriminate | intros (? & ? & _); discriminate]).
    split.
    + intros H. exists s. repeat split; try done.
      intros ->. discriminate.
    + intros (s' & [= <-] & Hne & _).
      destruct (String.eqb_spec s ""); [done | reflexivity].
  - simpl. split; [discriminate | intros (? & _ & _ & ?); discriminate].
Qed.

Lemma filter_length_le {A} (f : A → bool) (l : list A) :
  length (List.filter f l) ≤ length l.
Proof. induction l as [|x l IH]; simpl; [lia | destruct (f x); simpl; lia]. Qed.

Lemma filter_length_lt {A} (f : A → bool) (l : list A) (x : A) :
  x ∈ l → f x = false → length (List.filter f l) < length l.
Proof.
  induction 1 as [x l | x y l _ IH]; intros Hx; simpl.
  - rewrite Hx. pose proof (filter_length_le f l). lia.
  - specialize (IH Hx). destruct (f y); simpl; lia.
Qed.

(** An array with an element that has no string [id] loses that element in
    [getClassesToPatch], so the lengths differ. *)
Lemma getClassesToPatch_short elems bad :
  bad ∈ elems →
  (∀ s, get bad "id" ≠ Some (JStr s)) →
  ∃ ids, getClassesToPatch (JArr elems) = Some ids ∧ length ids < length elems.
Proof.
  intros Hin Hbad. eexists. split; [reflexivity |].
  rewrite <- (List.length_map getIds elems).
  apply filter_length_lt with (x := getIds bad).
  - apply list_elem_of_In, in_map, list_elem_of_In, Hin.
  - destruct (truthy (getIds bad)) eqn:Ht; [| done].
    apply getIds_truthy in Ht as (s & Hs & _). by destruct (Hbad s).
Qed.

Lemma getClassesToPatch_not_array v :
  (∀ elems, v ≠ JArr elems) → getClassesToPatch v = None.
Proof. destruct v; intros H; try reflexivity. by destruct (H elems). Qed.

Lemma patchTextClasses_invalid tenantid textid patchoperation op elems bad :
  get patchoperation "op" = Some op →
  is_string op "add" = true ∨ is_string op "remove" = true →
  get patchoperation "value" = Some (JArr elems) →
  bad ∈ elems →
  (∀ s, get bad "id" ≠ Some (JStr s)) →
  patchTextClasses tenantid textid patchoperation = Callback (invalid "Invalid value array").
Proof.
  intros Hop Hadd Hval Hin Hbad. unfold patchTextClasses. rewrite Hop, Hval.
  destruct (getClassesToPatch_short elems bad Hin Hbad) as (ids & -> & Hlt).
  assert (Hneq : (length ids =? valueLength (JArr elems))%nat = false)
    by (apply Nat.eqb_neq; simpl; lia).
  rewrite Hneq. simpl.
  destruct Hadd as [-> | Hrem]; [done |].
  rewrite Hrem. by destruct (is_string op "add").
Qed.

Lemma patchTextClasses_raises tenantid textid patchoperation op v :
  get patchoperation "op" = Some op →
  is_string op "add" = true ∨ is_string op "remove" = true →
  get patchoperation "value" = Some v →
  (∀ elems, v ≠ JArr elems) →
  patchTextClasses tenantid textid patchoperation = Raise.
Proof.
  intros Hop Hadd Hval Hv. unfold patchTextClasses. rewrite Hop, Hval.
  rewrite (getClassesToPatch_not_array v Hv).
  destruct Hadd as [-> | ->]; [done |]. by destruct (is_string op "add").
Qed.

(** ** Counting outcomes in the result array *)

Fixpoint successes (rs : list (option Outcome)) : nat :=
  match rs with
  | [] => 0
  | Some (Result _) :: rest => S (successes rest)
  | _ :: rest => successes rest
  end.

Fixpoint failures (rs : list (option Outcome)) : nat :=
  match rs with
  | [] => 0
  | Some (PatchError _ _) :: rest => S (failures rest)
  | _ :: rest => failures rest
  end.

(** Operations that have settled: slots that are no longer holes. *)
Definition settled (rs : list (option Outcome)) : nat := successes rs + failures rs.

Lemma successes_replicate n : successes (replicate n None) = 0.
Proof. induction n; simpl; auto. Qed.

Lemma failures_replicate n : failures (replicate n None) = 0.
Proof. induction n; simpl; auto. Qed.

Lemma successes_insert rs i o :
  rs !! i = Some None →
  successes (<[i := Some o]> rs) = (if is_error o then 0 else 1) + successes rs.
Proof.
  revert i. induction rs as [|r rs IH]; intros [|i] H; simpl in *; try discriminate.
  - injection H as ->. by destruct o.
  - rewrite (IH i H). destruct r as [[]|], o; simpl; lia.
Qed.

Lemma failures_insert rs i o :
  rs !! i = Some None →
  failures (<[i := Some o]> rs) = (if is_error o then 1 else 0) + failures rs.
Proof.
  revert i. induction rs as [|r rs IH]; intros [|i] H; simpl in *; try discriminate.
  - injection H as ->. by destruct o.
  - rewrite (IH i H). destruct r as [[]|], o; simpl; lia.
Qed.

Lemma settled_insert rs i o :
  rs !! i = Some None → settled (<[i := Some o]> rs) = S (settled rs).
Proof.
  intros H. unfold settled. rewrite successes_insert, failures_insert by done.
  destruct (is_error o); lia.
Qed.

Lemma settled_le rs : settled rs ≤ length rs.
Proof.
  unfold settled. induction rs as [|[[]|] rs IH]; simpl; lia.
Qed.

(** ** The invariant of a batch *)

Section Batch.

Variables tenantid textid patchid : string.

(** The operations that were submitted. *)
Variable ops : list JSValue.

Record Inv (s : Exec) : Prop := {
  inv_heap : ∃ d, heap s !! details s = Some d
               ∧ success d = successes (results s)
               ∧ error d = failures (results s)
               ∧ status d = (if finished s then COMPLETE else RUNNING);
  inv_queue : queue s = drop (next s) ops;
  inv_next : next s ≤ length ops;
  inv_length : length (results s) = length ops;
  inv_holes : ∀ j, next s ≤ j → j < length ops → results s !! j = Some None;
  inv_inflight : ∀ j op, inflight s !! j = Some op →
                   j < next s ∧ results s !! j = Some None ∧ ops !! j = Some op;
  inv_account : settled (results s) + size (inflight s) + raised s = next s;
  inv_limit : running s ≤ limit;
  inv_errored : errored s = false;
  inv_finished : finished s = true → queue s = [] ∧ running s = 0
}.

(** Fields the invariant does not read may change freely. *)
Lemma Inv_ext s s' :
  Inv s →
  heap s' = heap s → details s' = details s → queue s' = queue s →
  next s' = next s → inflight s' = inflight s → raised s' = raised s →
  results s' = results s → errored s' = errored s → finished s' = finished s →
  Inv s'.
Proof.
  intros [] Hh Hd Hq Hn Hi Hr Hres He Hf.
  constructor; unfold running in *; rewrite ?Hh, ?Hd, ?Hq, ?Hn, ?Hi, ?Hr, ?Hres, ?He, ?Hf; done.
Qed.

Lemma Inv_head s patchoperation rest :
  Inv s → queue s = patchoperation :: rest →
  ops !! next s = Some patchoperation ∧ rest = drop (S (next s)) ops
  ∧ next s < length ops ∧ results s !! next s = Some None ∧ finished s = false.
Proof.
  intros HI Hq.
  assert (Hl : ops !! next s = Some patchoperation).
  { pose proof (lookup_drop ops (next s) 0) as H.
    rewrite <- (inv_queue s HI), Hq, Nat.add_0_r in H. done. }
  pose proof (lookup_lt_Some _ _ _ Hl) as Hlt.
  repeat split; try done.
  - pose proof (inv_queue s HI) as Hd.
    rewrite Hq, (drop_S _ _ _ Hl) in Hd. by injection Hd.
  - by apply (inv_holes s HI).
  - destruct (finished s) eqn:Hf; [| done].
    destruct (inv_finished s HI Hf) as [Hnil _]. congruence.
Qed.

(** The state in which item [i] has settled as an error, with or without
    the [cache.put] of [handleResult]. *)
Definition failed (put : bool) (i : nat) (patchoperation : JSValue)
    (e : DatabaseError) (s : Exec) : Exec :=
  let s := update_details incr_error s in
  let s := if put then put_details patchid s else s in
  with_results (<[i := Some (PatchError e patchoperation)]> (results s)) s.

(** The state in which item [i] waits for the store. *)
Definition launched (i : nat) (patchoperation : JSValue) (call : StoreCall)
    (s : Exec) : Exec :=
  with_calls (calls s ++ [call])
    (with_inflight (<[i := patchoperation]> (inflight s)) s).

Lemma applyPatch_cases i patchoperation s :
  applyPatch tenantid textid patchid i patchoperation s = None
  ∨ (∃ put e, applyPatch tenantid textid patchid i patchoperation s
              = Some (failed put i patchoperation e s))
  ∨ (∃ call, applyPatch tenantid textid patchid i patchoperation s
             = Some (launched i patchoperation call s)).
Proof.
  unfold applyPatch.
  destruct (get patchoperation "path") as [path|]; simpl; [| by left].
  destruct (is_string path "/classes").
  { destruct (patchTextClasses _ _ _) as [|e|call]; simpl.
    - by left.
    - right; left. by exists true, e.
    - right; right. by exists call. }
  destruct (is_string path "/metadata").
  { destruct (patchTextMetadata _ _ _) as [|e|call]; simpl.
    - by left.
    - right; left. by exists true, e.
    - right; right. by exists call. }
  right; left. by exists false, (invalid "Unsupported operation").
Qed.

Lemma Inv_failed s put patchoperation rest e :
  Inv s → queue s = patchoperation :: rest →
  Inv (failed put (next s) patchoperation e (with_queue rest (S (next s)) s)).
Proof.
  intros HI Hq.
  destruct (Inv_head s _ _ HI Hq) as (Hop & Hrest & Hlt & Hhole & Hfin).
  destruct (inv_heap s HI) as (d & Hd & Hs & He & Hst).
  assert (Hres : results (failed put (next s) patchoperation e
                            (with_queue rest (S (next s)) s))
                 = <[next s := Some (PatchError e patchoperation)]> (results s))
    by (by destruct put).
  assert (Hheap : heap (failed put (next s) patchoperation e
                            (with_queue rest (S (next s)) s))
                 = alter incr_error (details s) (heap s))
    by (by destruct put).
  constructor; rewrite ?Hres, ?Hheap; unfold running; destruct put; simpl.
  all: try (exists (incr_error d); rewrite lookup_alter_eq, Hd;
            rewrite successes_insert, failures_insert by done; simpl;
            rewrite Hfin in Hst; rewrite Hfin; repeat split; congruence).
  all: try done.
  all: try lia.
  all: try (by rewrite length_insert; apply (inv_length s HI)).
  all: try (intros j Hj Hjl; rewrite list_lookup_insert_ne by lia;
            apply (inv_holes s HI); lia).
  all: try (intros j op Hj; destruct (inv_inflight s HI j op Hj) as (? & ? & ?);
            repeat split; [lia | by rewrite list_lookup_insert_ne by lia | done]).
  all: try (rewrite settled_insert by done; pose proof (inv_account s HI); lia).
  all: try (apply (inv_limit s HI)).
  all: try (apply (inv_errored s HI)).
  all: try (rewrite Hfin; discriminate).
Qed.

Lemma Inv_launched s patchoperation rest call :
  Inv s → queue s = patchoperation :: rest → running s < limit →
  Inv (launched (next s) patchoperation call (with_queue rest (S (next s)) s)).
Proof.
  intros HI Hq Hrun.
  destruct (Inv_head s _ _ HI Hq) as (Hop & Hrest & Hlt & Hhole & Hfin).
  assert (Hfree : inflight s !! next s = None).
  { destruct (inflight s !! next s) as [op|] eqn:E; [| done].
    destruct (inv_inflight s HI _ _ E). lia. }
  pose proof (inv_account s HI) as Hacc.
  constructor; unfold running in *; simpl.
  - apply (inv_heap s HI).
  - done.
  - lia.
  - apply (inv_length s HI).
  - intros j Hj Hjl. apply (inv_holes s HI); lia.
  - intros j op [[<- <-] | [Hne Hj]]%lookup_insert_Some; [by auto with lia |].
    destruct (inv_inflight s HI j op Hj) as (? & ? & ?). auto with lia.
  - rewrite map_size_insert_None by done. lia.
  - rewrite map_size_insert_None by done. lia.
  - apply (inv_errored s HI).
  - rewrite Hfin. discriminate.
Qed.

Lemma Inv_raised s patchoperation rest :
  Inv s → queue s = patchoperation :: rest → running s < limit →
  Inv (with_raised (S (raised s)) (with_queue rest (S (next s)) s)).
Proof.
  intros HI Hq Hrun.
  destruct (Inv_head s _ _ HI Hq) as (Hop & Hrest & Hlt & Hhole & Hfin).
  pose proof (inv_account s HI) as Hacc.
  constructor; unfold running in *; simpl.
  - apply (inv_heap s HI).
  - done.
  - lia.
  - apply (inv_length s HI).
  - intros j Hj Hjl. apply (inv_holes s HI); lia.
  - intros j op Hj. destruct (inv_inflight s HI j op Hj) as (? & ? & ?). auto with lia.
  - lia.
  - lia.
  - apply (inv_errored s HI).
  - rewrite Hfin. discriminate.
Qed.

(** The state after the store has called back for item [i]. *)
Definition answered (i : nat) (patchoperation : JSValue)
    (err : option DatabaseError) (result : JSValue) (s : Exec) : Exec :=
  let '(s', args) :=
    operationHandler patchid patchoperation err result
      (with_inflight (delete i (inflight s)) s) in
  nextop textid patchid i args s'.

Lemma Inv_answered s i patchoperation err result :
  Inv s → inflight s !! i = Some patchoperation →
  Inv (answered i patchoperation err result s).
Proof.
  intros HI Hi.
  destruct (inv_inflight s HI _ _ Hi) as (Hlt & Hhole & Hop).
  destruct (inv_heap s HI) as (d & Hd & Hs & He & Hst).
  pose proof (inv_account s HI) as Hacc.
  assert (Hsz : size (inflight s) ≠ 0).
  { intros H0. apply map_size_empty_inv in H0. rewrite H0 in Hi. done. }
  assert (Hfin : finished s = false).
  { destruct (finished s) eqn:Hf; [| done].
    destruct (inv_finished s HI Hf) as [_ Hr]. unfold running in Hr. lia. }
  rewrite Hfin in Hst.
  constructor; unfold running in *; destruct err as [e|]; simpl.
  all: rewrite ?map_size_delete_Some by eauto.
  all: rewrite ?settled_insert by done.
  all: try (eexists; split; [rewrite lookup_alter_eq, Hd; reflexivity |];
            rewrite successes_insert, failures_insert by done; simpl;
            rewrite Hfin; repeat split; congruence).
  all: try (apply (inv_queue s HI)).
  all: try (apply (inv_next s HI)).
  all: try (rewrite length_insert; apply (inv_length s HI)).
  all: try (intros j Hj Hjl; rewrite list_lookup_insert_ne by lia;
            apply (inv_holes s HI); lia).
  all: try (intros j op [Hne Hj]%lookup_delete_Some;
            destruct (inv_inflight s HI j op Hj) as (? & ? & ?);
            repeat split; [done | by rewrite list_lookup_insert_ne | done]).
  all: try lia.
  all: try (pose proof (inv_limit s HI); unfold running in *; lia).
  all: try (apply (inv_errored s HI)).
  all: try (rewrite Hfin; discriminate).
Qed.

Lemma Inv_handlePatchResponse s :
  Inv s → queue s = [] → running s = 0 →
  Inv (handlePatchResponse textid patchid None s).
Proof.
  intros HI Hq Hrun. unfold handlePatchResponse.
  destruct (finished s) eqn:Hfin; [done |].
  destruct (inv_heap s HI) as (d & Hd & Hs & He & Hst).
  constructor; unfold running in *; simpl.
  - exists (set_status COMPLETE d). rewrite lookup_alter_eq, Hd. done.
  - apply (inv_queue s HI).
  - apply (inv_next s HI).
  - apply (inv_length s HI).
  - apply (inv_holes s HI).
  - apply (inv_inflight s HI).
  - apply (inv_account s HI).
  - apply (inv_limit s HI).
  - apply (inv_errored s HI).
  - done.
Qed.

Lemma handlePatchResponse_finished err s :
  finished (handlePatchResponse textid patchid err s) = true.
Proof. unfold handlePatchResponse. destruct (finished s) eqn:E; [exact E | reflexivity]. Qed.

(** After the loop of [mapLimit] has run, the batch is finished or
    something holds a slot. *)
Definition Busy (s : Exec) : Prop := finished s = true ∨ 0 < running s.

Lemma replenish_Inv todo : ∀ s,
  Inv s → queue s = todo →
  Inv (replenish tenantid textid patchid todo s)
  ∧ Busy (replenish tenantid textid patchid todo s).
Proof.
  induction todo as [|patchoperation rest IH]; intros s HI Hq; simpl.
  - assert (HI' : Inv (with_queue [] (next s) s))
      by (eapply Inv_ext; [exact HI | done..]).
    destruct (Nat.eqb_spec (running (with_queue [] (next s) s)) 0) as [H0 | Hne].
    + split; [by apply Inv_handlePatchResponse |].
      left. apply handlePatchResponse_finished.
    + split; [done |]. right. lia.
  - destruct (Nat.ltb_spec (running s) limit) as [Hlt | Hge].
    + destruct (applyPatch_cases (next s) patchoperation
                  (with_queue rest (S (next s)) s))
        as [-> | [(put & e & ->) | (call & ->)]].
      * split; [exact (Inv_raised s patchoperation rest HI Hq Hlt) |].
        right. unfold running. simpl. lia.
      * pose proof (Inv_failed s put _ _ e HI Hq) as HI'.
        rewrite (inv_errored _ HI'). apply IH; [done |]. by destruct put.
      * pose proof (Inv_launched s _ _ call HI Hq Hlt) as HI'.
        rewrite (inv_errored _ HI'). by apply IH.
    + split.
      * eapply Inv_ext; [exact HI | done..].
      * right. unfold running in *. simpl. unfold limit in Hge. lia.
Qed.

(** The state [editText] hands to [mapLimit]. *)
Lemma Inv_created now0 heap0 cache0 :
  Inv (created patchid now0 heap0 cache0 ops).
Proof.
  constructor; unfold running; simpl.
  - eexists. rewrite lookup_insert_eq.
    by rewrite successes_replicate, failures_replicate.
  - done.
  - lia.
  - apply length_replicate.
  - intros j _ Hj. by apply lookup_replicate_2.
  - intros j op Hj. by rewrite lookup_empty in Hj.
  - unfold settled. rewrite successes_replicate, failures_replicate.
    by rewrite map_size_empty.
  - rewrite map_size_empty. lia.
  - done.
  - done.
Qed.

Lemma editText_Inv now0 heap0 cache0 :
  let s := editText tenantid textid patchid now0 heap0 cache0 ops in
  Inv s ∧ Busy s.
Proof.
  unfold editText. apply replenish_Inv; [| done]. apply Inv_created.
Qed.

Lemma step_Inv e s s' :
  step tenantid textid patchid e s = Some s' → Inv s → Inv s' ∧ (Busy s → Busy s').
Proof.
  destruct e as [i err result | dt]; simpl.
  - destruct (inflight s !! i) as [patchoperation|] eqn:Hi; simpl; [| done].
    intros Hs HI.
    pose proof (Inv_answered s i patchoperation err result HI Hi) as HI'.
    unfold answered in HI'.
    destruct (operationHandler _ _ _ _ _) as [s1 args].
    rewrite (inv_errored _ HI') in Hs. injection Hs as <-.
    destruct (replenish_Inv (queue (nextop textid patchid i args s1))
                (nextop textid patchid i args s1) HI' eq_refl). auto.
  - intros [= <-] HI. split; [| done].
    eapply Inv_ext; [exact HI | done..].
Qed.

(** The states a batch can be in: those a run of replies and delays
    reaches from [editText]. *)
Definition reachable (s : Exec) : Prop :=
  ∃ now0 heap0 cache0 es,
    run tenantid textid patchid es
      (editText tenantid textid patchid now0 heap0 cache0 ops) = Some s.

Lemma run_Inv es : ∀ s s',
  run tenantid textid patchid es s = Some s' → Inv s ∧ Busy s → Inv s' ∧ Busy s'.
Proof.
  induction es as [|e es IH]; intros s s'; simpl.
  - by intros [= <-].
  - destruct (step tenantid textid patchid e s) as [s1|] eqn:Hstep; simpl; [| done].
    intros Hrun [HI HB]. apply (IH s1 s' Hrun).
    destruct (step_Inv e s s1 Hstep HI). auto.
Qed.

Lemma reachable_Inv s : reachable s → Inv s ∧ Busy s.
Proof.
  intros (now0 & heap0 & cache0 & es & Hrun).
  eapply run_Inv; [exact Hrun |]. apply editText_Inv.
Qed.

(** *** Where the entries of the result array come from *)

(** The iterator raises on this operation. *)
Definition raises (patchoperation : JSValue) : bool :=
  match get patchoperation "path" with
  | None => true
  | Some path =>
      if is_string path "/classes" then
        match patchTextClasses tenantid textid patchoperation with
        | Raise => true
        | _ => false
        end
      else if is_string path "/metadata" then
        match patchTextMetadata tenantid textid patchoperation with
        | Raise => true
        | _ => false
        end
      else false
  end.

Lemma applyPatch_None i patchoperation s :
  applyPatch tenantid textid patchid i patchoperation s = None
  ↔ raises patchoperation = true.
Proof.
  unfold applyPatch, raises.
  destruct (get patchoperation "path") as [path|]; simpl; [| done].
  destruct (is_string path "/classes").
  { by destruct (patchTextClasses _ _ _). }
  destruct (is_string path "/metadata").
  { by destruct (patchTextMetadata _ _ _). }
  done.
Qed.

(** Every settled slot belongs to a submitted operation on which the
    iterator did not raise, and an error in it carries that operation;
    the same holds for what is waiting for the store. *)
Definition Prov (s : Exec) : Prop :=
  (∀ j o, results s !! j = Some (Some o) →
     ∃ op, ops !! j = Some op ∧ raises op = false
           ∧ ∀ e op', o = PatchError e op' → op' = op)
  ∧ (∀ j op, inflight s !! j = Some op → raises op = false).

Lemma Prov_ext s s' :
  Prov s → results s' = results s → inflight s' = inflight s → Prov s'.
Proof. intros [] Hr Hi. split; rewrite ?Hr, ?Hi; done. Qed.

Lemma Prov_failed s put patchoperation rest e :
  Inv s → Prov s → queue s = patchoperation :: rest →
  raises patchoperation = false →
  Prov (failed put (next s) patchoperation e (with_queue rest (S (next s)) s)).
Proof.
  intros HI [Hres Hfl] Hq Hr.
  destruct (Inv_head s _ _ HI Hq) as (Hop & Hrest & Hlt & Hhole & Hfin).
  assert (Hresults : results (failed put (next s) patchoperation e
                            (with_queue rest (S (next s)) s))
                 = <[next s := Some (PatchError e patchoperation)]> (results s))
    by (by destruct put).
  split; [rewrite Hresults | by destruct put].
  intros j o [(<- & [= <-] & _) | [Hne Hj]]%list_lookup_insert_Some; [| by eauto].
  exists patchoperation. repeat split; [done.. |]. by intros e' op' [= _ <-].
Qed.

Lemma Prov_launched s patchoperation rest call :
  Prov s → raises patchoperation = false →
  Prov (launched (next s) patchoperation call (with_queue rest (S (next s)) s)).
Proof.
  intros [Hres Hfl] Hr. split; simpl; [done |].
  intros j op [[_ <-] | [_ Hj]]%lookup_insert_Some; eauto.
Qed.

Lemma Prov_answered s i patchoperation err result :
  Inv s → Prov s → inflight s !! i = Some patchoperation →
  Prov (answered i patchoperation err result s).
Proof.
  intros HI [Hres Hfl] Hi.
  destruct (inv_inflight s HI _ _ Hi) as (Hlt & Hhole & Hop).
  split; destruct err as [e|]; simpl.
  - intros j o [(<- & [= <-] & _) | [Hne Hj]]%list_lookup_insert_Some; [| by eauto].
    exists patchoperation. repeat split; [done | by eauto |]. by intros e' op' [= _ <-].
  - intros j o [(<- & [= <-] & _) | [Hne Hj]]%list_lookup_insert_Some; [| by eauto].
    exists patchoperation. repeat split; [done | by eauto | done].
  - intros j op [_ Hj]%lookup_delete_Some. eauto.
  - intros j op [_ Hj]%lookup_delete_Some. eauto.
Qed.

Lemma Prov_handlePatchResponse err s :
  Prov s → Prov (handlePatchResponse textid patchid err s).
Proof.
  intros H. unfold handlePatchResponse. destruct (finished s); [done |].
  by eapply Prov_ext.
Qed.

Lemma replenish_Prov todo : ∀ s,
  Inv s → Prov s → queue s = todo →
  Prov (replenish tenantid textid patchid todo s).
Proof.
  induction todo as [|patchoperation rest IH]; intros s HI HP Hq; simpl.
  - destruct (running _ =? 0)%nat.
    + apply Prov_handlePatchResponse. by eapply Prov_ext.
    + by eapply Prov_ext.
  - destruct (Nat.ltb_spec (running s) limit) as [Hlt | Hge]; [| by eapply Prov_ext].
    destruct (raises patchoperation) eqn:Hr.
    + apply (applyPatch_None (next s) patchoperation
               (with_queue rest (S (next s)) s)) in Hr as ->.
      by eapply Prov_ext.
    + assert (Hsome : applyPatch tenantid textid patchid (next s) patchoperation
                        (with_queue rest (S (next s)) s) ≠ None).
      { intros H%applyPatch_None. congruence. }
      destruct (applyPatch_cases (next s) patchoperation
                  (with_queue rest (S (next s)) s))
        as [H | [(put & e & H) | (call & H)]]; [done | |]; rewrite H.
      * pose proof (Inv_failed s put _ _ e HI Hq) as HI'.
        rewrite (inv_errored _ HI').
        apply IH; [done | by apply Prov_failed | by destruct put].
      * pose proof (Inv_launched s _ _ call HI Hq Hlt) as HI'.
        rewrite (inv_errored _ HI').
        apply IH; [done | by apply Prov_launched | done].
Qed.

Lemma step_Prov e s s' :
  step tenantid textid patchid e s = Some s' → Inv s → Prov s → Prov s'.
Proof.
  destruct e as [i err result | dt]; simpl.
  - destruct (inflight s !! i) as [patchoperation|] eqn:Hi; simpl; [| done].
    intros Hs HI HP.
    pose proof (Inv_answered s i patchoperation err result HI Hi) as HI'.
    pose proof (Prov_answered s i patchoperation err result HI HP Hi) as HP'.
    unfold answered in HI', HP'.
    destruct (operationHandler _ _ _ _ _) as [s1 args].
    rewrite (inv_errored _ HI') in Hs. injection Hs as <-.
    by apply replenish_Prov.
  - intros [= <-] _ HP. by eapply Prov_ext.
Qed.

Lemma reachable_Prov s : reachable s → Prov s.
Proof.
  intros (now0 & heap0 & cache0 & es & Hrun).
  pose proof (editText_Inv now0 heap0 cache0) as [HI HB].
  assert (HP : Prov (editText tenantid textid patchid now0 heap0 cache0 ops)).
  { unfold editText. apply replenish_Prov; [| | done].
    - apply Inv_created.
    - split; simpl.
      + intros j o [? _]%lookup_replicate_1. done.
      + intros j op Hj. by rewrite lookup_empty in Hj. }
  revert HI HB HP Hrun. generalize (editText tenantid textid patchid now0 heap0 cache0 ops).
  induction es as [|e es IH]; intros s0 HI HB HP; simpl.
  - by intros [= <-].
  - destruct (step tenantid textid patchid e s0) as [s1|] eqn:Hstep; simpl; [| done].
    destruct (step_Inv e s0 s1 Hstep HI) as [HI1 HB1].
    apply IH; [done | by auto | by eapply step_Prov].
Qed.

End Batch.

(** ** What a batch does to the cache *)

(** The instant of the last write of the status record: the creation, or
    the latest reply of the store. *)
Fixpoint lastWrite (now last : N) (es : list Input) : N :=
  match es with
  | [] => last
  | Reply _ _ _ :: rest => lastWrite now now rest
  | Elapse dt :: rest => lastWrite (now + dt) last rest
  end.

Section Cache.

Variables tenantid textid patchid : string.

(** Between two states of one instant: the cache is untouched, or the
    record was put under [patchid] for five minutes from that instant. *)
Definition kept (s s' : Exec) : Prop :=
  now s' = now s ∧ details s' = details s ∧ cache s' = cache s.

Definition wrote (s s' : Exec) : Prop :=
  now s' = now s ∧ details s' = details s
  ∧ cache s' = cache_put patchid (details s) (5 * MINUTE) (now s) (cache s).

Definition touched (s s' : Exec) : Prop := kept s s' ∨ wrote s s'.

Lemma kept_touched a b c : kept a b → touched b c → touched a c.
Proof.
  intros (Hn & Hd & Hc) [(Hn' & Hd' & Hc') | (Hn' & Hd' & Hc')]; [left | right];
    repeat split; congruence.
Qed.

Lemma wrote_touched a b c : wrote a b → touched b c → wrote a c.
Proof.
  intros (Hn & Hd & Hc) [(Hn' & Hd' & Hc') | (Hn' & Hd' & Hc')];
    repeat split; try congruence.
  rewrite Hc', Hc, Hn, Hd. unfold cache_put. apply insert_insert_eq.
Qed.

Lemma touched_trans a b c : touched a b → touched b c → touched a c.
Proof.
  intros [H | H] Hbc; [by eapply kept_touched | right; by eapply wrote_touched].
Qed.

Lemma handlePatchResponse_touched err s :
  touched s (handlePatchResponse textid patchid err s).
Proof.
  unfold handlePatchResponse. destruct (finished s); [by left | by right].
Qed.

Lemma replenish_touched todo : ∀ s,
  touched s (replenish tenantid textid patchid todo s).
Proof.
  induction todo as [|patchoperation rest IH]; intros s; simpl.
  - destruct (running _ =? 0)%nat; [| by left].
    eapply kept_touched; [| apply handlePatchResponse_touched]. done.
  - destruct (running s <? limit)%nat; [| by left].
    destruct (applyPatch_cases tenantid textid patchid (next s) patchoperation
                (with_queue rest (S (next s)) s))
      as [-> | [(put & e & ->) | (call & ->)]]; [by left | |].
    + assert (H : touched s (failed patchid put (next s) patchoperation e
                               (with_queue rest (S (next s)) s)))
        by (destruct put; [by right | by left]).
      destruct (errored _); [done |]. eapply touched_trans; [exact H | apply IH].
    + destruct (errored _); [by left |]. eapply kept_touched; [| apply IH]. done.
Qed.

Lemma step_Reply_wrote i err result s s' :
  step tenantid textid patchid (Reply i err result) s = Some s' → wrote s s'.
Proof.
  simpl. destruct (inflight s !! i) as [patchoperation|]; simpl; [| done].
  destruct err as [e|]; simpl; destruct (errored s); intros [= <-];
    try (by repeat split);
    (eapply wrote_touched; [| apply replenish_touched]); done.
Qed.

Lemma step_Elapse_kept dt s s' :
  step tenantid textid patchid (Elapse dt) s = Some s' →
  now s' = (now s + dt)%N ∧ details s' = details s ∧ cache s' = cache s.
Proof. by intros [= <-]. Qed.

Lemma editText_wrote now0 heap0 cache0 ops :
  let s := editText tenantid textid patchid now0 heap0 cache0 ops in
  now s = now0 ∧ details s = fresh (dom heap0)
  ∧ cache s = cache_put patchid (fresh (dom heap0)) (5 * MINUTE) now0 cache0.
Proof.
  unfold editText.
  match goal with |- context [replenish _ _ _ ?l ?s0] =>
    destruct (replenish_touched l s0) as [(Hn & Hd & Hc) | (Hn & Hd & Hc)];
    simpl; rewrite Hn, Hd, Hc; simpl
  end.
  - done.
  - repeat split. unfold cache_put. apply insert_insert_eq.
Qed.

Lemma run_cache es : ∀ s0 s last,
  run tenantid textid patchid es s0 = Some s →
  cache s0 !! patchid = Some {| value := details s0; expire := last + 5 * MINUTE |} →
  details s = details s0
  ∧ cache s !! patchid
    = Some {| value := details s0; expire := lastWrite (now s0) last es + 5 * MINUTE |}
  ∧ ∀ id, id ≠ patchid → cache s !! id = cache s0 !! id.
Proof.
  induction es as [|e es IH]; intros s0 s last; simpl.
  - by intros [= <-].
  - destruct (step tenantid textid patchid e s0) as [s1|] eqn:Hstep; simpl; [| done].
    intros Hrun Hc. destruct e as [i err result | dt].
    + destruct (step_Reply_wrote _ _ _ _ _ Hstep) as (Hn & Hd & Hc1).
      destruct (IH s1 s (now s0) Hrun) as (Hd' & Hc' & Hother).
      { rewrite Hc1, Hd. unfold cache_put. by rewrite lookup_insert_eq. }
      rewrite Hn, Hd in *. repeat split; [done.. |].
      intros id Hid. rewrite (Hother id Hid), Hc1.
      unfold cache_put. by rewrite lookup_insert_ne.
    + destruct (step_Elapse_kept _ _ _ Hstep) as (Hn & Hd & Hc1).
      destruct (IH s1 s last Hrun) as (Hd' & Hc' & Hother).
      { by rewrite Hc1, Hd. }
      rewrite Hn, Hd, Hc1 in *. done.
Qed.

End Cache.

(** ** The scenario of the specification *)

Definition op_add : JSValue :=
  JObj [("op", JStr "add"); ("path", JStr "/classes");
        ("value", JArr [JObj [("id", JStr "c1")]; JObj [("id", JStr "c2")]])].

Definition op_replace : JSValue :=
  JObj [("op", JStr "replace"); ("path", JStr "/metadata");
        ("value", JObj [("value", JStr "x"); ("metadata", JObj [])])].

Definition op_bogus : JSValue :=
  JObj [("op", JStr "bogus"); ("path", JStr "/nope")].

Definition scenario : list JSValue := [op_add; op_replace; op_bogus].

(** The store answers both calls without an error, the second call first
    and the first one two seconds later. *)
Definition scenario_replies : list Input :=
  [Reply 1 None (JObj [("metadata", JObj [("value", JStr "x")])]);
   Elapse 2000;
   Reply 0 None (JObj [("classes", JArr [JStr "c1"; JStr "c2"])])].

Definition scenario_start : Exec :=
  editText "tenant" "text" "patch" 0 ∅ ∅ scenario.

Definition scenario_end : Exec :=
  default scenario_start (run "tenant" "text" "patch" scenario_replies scenario_start).

(** The run of the scenario: both calls go to the store at once, the
    unsupported operation is counted before [editText] returns, and the
    second reply ends the batch. *)
Example scenario_start_status :
  patchStatus "patch" scenario_start
  = Some {| status := RUNNING; success := 0; error := 1 |}
  ∧ calls scenario_start
    = [addClassesToText "tenant" "text" [JStr "c1"; JStr "c2"];
       updateTextMetadata "tenant" "text"
         (JObj [("value", JStr "x"); ("metadata", JObj [])])]
  ∧ finished scenario_start = false.
Proof. by vm_compute. Qed.

Example scenario_end_status :
  run "tenant" "text" "patch" scenario_replies scenario_start = Some scenario_end
  ∧ patchStatus "patch" scenario_end
    = Some {| status := COMPLETE; success := 2; error := 1 |}
  ∧ finished scenario_end = true.
Proof. by vm_compute. Qed.

(** ** The status record seen through the cache *)

Lemma reachable_cache tenantid textid patchid ops s :
  reachable tenantid textid patchid ops s →
  ∃ t, cache s !! patchid = Some {| value := details s; expire := t |}.
Proof.
  intros (now0 & heap0 & cache0 & es & Hrun).
  destruct (editText_wrote tenantid textid patchid now0 heap0 cache0 ops)
    as (Hn & Hd & Hc).
  destruct (run_cache tenantid textid patchid es _ s now0 Hrun) as (Hd' & Hc' & _).
  { rewrite Hc, Hd. unfold cache_put. by rewrite lookup_insert_eq. }
  rewrite Hd'. eauto.
Qed.

Lemma reachable_patchStatus tenantid textid patchid ops s d :
  reachable tenantid textid patchid ops s →
  patchStatus patchid s = Some d → heap s !! details s = Some d.
Proof.
  intros Hr. destruct (reachable_cache _ _ _ _ _ Hr) as (t & Hc).
  unfold patchStatus, cache_get. rewrite Hc. simpl.
  by destruct (now s <? t)%N.
Qed.

Lemma hole_unsettled rs j : rs !! j = Some None → settled rs < length rs.
Proof.
  revert j. induction rs as [|r rs IH]; intros [|j] H; simpl in *; try discriminate.
  - injection H as ->. pose proof (settled_le rs). unfold settled in *. simpl. lia.
  - specialize (IH j H). unfold settled in *. destruct r as [[]|]; simpl; lia.
Qed.

Lemma finished_all_settled ops s :
  Inv ops s → finished s = true → settled (results s) = length ops.
Proof.
  intros HI Hf. destruct (inv_finished ops s HI Hf) as [Hq Hrun].
  pose proof (inv_queue ops s HI) as Hd. rewrite Hq in Hd.
  symmetry in Hd. apply drop_nil_inv in Hd.
  pose proof (inv_next ops s HI). pose proof (inv_account ops s HI).
  unfold running in Hrun. lia.
Qed.

(** C1: in every state a batch of N operations can reach, the status record
    counts each settled operation exactly once, a success in [success] and
    an error in [error]; so [success + error] is the number of settled
    operations, never exceeds N, and equals N once the terminal status has
    been assigned.  The record read through [patchStatus] is that record. *)
Theorem C1_counted_once tenantid textid patchid ops s :
  reachable tenantid textid patchid ops s →
  ∃ d, heap s !! details s = Some d
     ∧ (∀ d', patchStatus patchid s = Some d' → d' = d)
     ∧ success d = successes (results s)
     ∧ error d = failures (results s)
     ∧ success d + error d = settled (results s)
     ∧ success d + error d ≤ length ops
     ∧ (status d ≠ RUNNING → success d + error d = length ops).
Proof.
  intros Hr. destruct (reachable_Inv _ _ _ _ _ Hr) as [HI _].
  destruct (inv_heap ops s HI) as (d & Hd & Hs & He & Hst).
  exists d. repeat split; try done.
  - intros d' Hd'. apply (reachable_patchStatus _ _ _ _ _ _ Hr) in Hd'. congruence.
  - unfold settled. lia.
  - pose proof (settled_le (results s)). rewrite (inv_length ops s HI) in *.
    unfold settled in *. lia.
  - intros Hne. destruct (finished s) eqn:Hf; [| done].
    pose proof (finished_all_settled ops s HI Hf).
    unfold settled in *. lia.
Qed.

Lemma C1_counted_once_witness :
  ∃ d, heap scenario_end !! details scenario_end = Some d
     ∧ (∀ d', patchStatus "patch" scenario_end = Some d' → d' = d)
     ∧ success d = successes (results scenario_end)
     ∧ error d = failures (results scenario_end)
     ∧ success d + error d = settled (results scenario_end)
     ∧ success d + error d ≤ length scenario
     ∧ (status d ≠ RUNNING → success d + error d = length scenario).
Proof.
  apply (C1_counted_once "tenant" "text" "patch" scenario scenario_end).
  exists 0%N, ∅, ∅, scenario_replies. vm_compute. reflexivity.
Defined.

(** C3: [handleResult] always passes a null error to the callback of
    [mapLimit], and in every state a batch can reach no error has been
    passed to that callback; the status is never ERROR, and it is COMPLETE
    once the final callback has run. *)
Theorem C3_error_branch_unreachable tenantid textid patchid ops s :
  reachable tenantid textid patchid ops s →
  (∀ patchoperation err result s0,
     (operationHandler patchid patchoperation err result s0).2.1 = None)
  ∧ errored s = false
  ∧ ∃ d, heap s !! details s = Some d
       ∧ status d ≠ ERROR
       ∧ (finished s = true → status d = COMPLETE).
Proof.
  intros Hr. destruct (reachable_Inv _ _ _ _ _ Hr) as [HI _].
  split; [by intros op [e|] result s0 |].
  split; [apply (inv_errored ops s HI) |].
  destruct (inv_heap ops s HI) as (d & Hd & _ & _ & Hst).
  exists d. split; [done |]. rewrite Hst. by destruct (finished s).
Qed.

Lemma C3_error_branch_unreachable_witness :
  (∀ patchoperation err result s0,
     (operationHandler "patch" patchoperation err result s0).2.1 = None)
  ∧ errored scenario_end = false
  ∧ ∃ d, heap scenario_end !! details scenario_end = Some d
       ∧ status d ≠ ERROR
       ∧ (finished scenario_end = true → status d = COMPLETE).
Proof.
  apply (C3_error_branch_unreachable "tenant" "text" "patch" scenario scenario_end).
  exists 0%N, ∅, ∅, scenario_replies. vm_compute. reflexivity.
Defined.

(** Twelve operations that all go to the store. *)
Definition twelve_adds : list JSValue := replicate 12 op_add.

(** C9: in every state a batch can reach, at most ten of its operations are
    waiting for the store, and while ten slots are taken the loop of
    [mapLimit] starts nothing: the queue, the waiting operations and the
    calls made on the store stay as they are. *)
Theorem C9_at_most_ten tenantid textid patchid ops s :
  reachable tenantid textid patchid ops s →
  limit = 10
  ∧ size (inflight s) ≤ 10
  ∧ (∀ s0 patchoperation rest,
       10 ≤ running s0 →
       replenish tenantid textid patchid (patchoperation :: rest) s0
       = with_queue (patchoperation :: rest) (next s0) s0).
Proof.
  intros Hr. destruct (reachable_Inv _ _ _ _ _ Hr) as [HI _].
  split; [done |]. split.
  - pose proof (inv_limit ops s HI) as H. unfold running, limit in H. lia.
  - intros s0 patchoperation rest Hfull. simpl.
    destruct (Nat.ltb_spec (running s0) limit) as [Hlt | _]; [| done].
    unfold limit in Hlt. lia.
Qed.

Lemma C9_at_most_ten_witness :
  limit = 10
  ∧ size (inflight (editText "tenant" "text" "patch" 0 ∅ ∅ twelve_adds)) ≤ 10
  ∧ (∀ s0 patchoperation rest,
       10 ≤ running s0 →
       replenish "tenant" "text" "patch" (patchoperation :: rest) s0
       = with_queue (patchoperation :: rest) (next s0) s0).
Proof.
  apply (C9_at_most_ten "tenant" "text" "patch" twelve_adds).
  exists 0%N, ∅, ∅, []. reflexivity.
Defined.

(** With twelve operations for the store, ten are started and two wait;
    a reply frees a slot and the next one is started. *)
Example twelve_adds_start :
  let s := editText "tenant" "text" "patch" 0 ∅ ∅ twelve_adds in
  size (inflight s) = 10 ∧ length (queue s) = 2 ∧ length (calls s) = 10.
Proof. by vm_compute. Qed.

Example twelve_adds_reply :
  (λ s, (size (inflight s), length (queue s), length (calls s)))
    <$> run "tenant" "text" "patch" [Reply 3 None (JObj [])]
          (editText "tenant" "text" "patch" 0 ∅ ∅ twelve_adds)
  = Some (10, 1, 11).
Proof. by vm_compute. Qed.

(** C8: every write of the status record stores it for 300000 ms from the
    instant of the write: [editText] writes it at creation and every reply
    of the store writes it again, so after any run the entry expires five
    minutes after the last of these instants.  [patchStatus] returns the
    stored record while less than five minutes have passed since then and
    nothing once five minutes have passed, and nothing for an id that was
    never written. *)
Theorem C8_five_minutes tenantid textid patchid ops now0 heap0 cache0 es s :
  run tenantid textid patchid es
    (editText tenantid textid patchid now0 heap0 cache0 ops) = Some s →
  (5 * MINUTE = 300000)%N
  ∧ cache (editText tenantid textid patchid now0 heap0 cache0 ops)
    = cache_put patchid (fresh (dom heap0)) 300000 now0 cache0
  ∧ (∀ i err result s1 s2,
       step tenantid textid patchid (Reply i err result) s1 = Some s2 →
       cache s2 = cache_put patchid (details s1) 300000 (now s1) (cache s1))
  ∧ cache s !! patchid
    = Some {| value := details s; expire := lastWrite now0 now0 es + 300000 |}
  ∧ (∃ d, heap s !! details s = Some d
        ∧ ((now s < lastWrite now0 now0 es + 300000)%N →
           patchStatus patchid s = Some d))
  ∧ ((lastWrite now0 now0 es + 300000 ≤ now s)%N → patchStatus patchid s = None)
  ∧ (∀ id, id ≠ patchid → cache0 !! id = None → patchStatus id s = None).
Proof.
  intros Hrun.
  assert (Hr : reachable tenantid textid patchid ops s) by (by exists now0, heap0, cache0, es).
  destruct (reachable_Inv _ _ _ _ _ Hr) as [HI _].
  destruct (editText_wrote tenantid textid patchid now0 heap0 cache0 ops)
    as (Hn & Hd & Hc).
  destruct (run_cache tenantid textid patchid es _ s now0 Hrun) as (Hd' & Hc' & Hother).
  { rewrite Hc, Hd. unfold cache_put. by rewrite lookup_insert_eq. }
  rewrite Hn in Hc'. rewrite <- Hd' in Hc'.
  change (5 * MINUTE)%N with 300000%N in *.
  split; [done |]. split; [done |]. split.
  { intros i err result s1 s2 Hstep.
    by destruct (step_Reply_wrote _ _ _ _ _ _ _ _ Hstep) as (_ & _ & ?). }
  split; [done |].
  destruct (inv_heap ops s HI) as (d & Hheap & _).
  repeat split.
  - exists d. split; [done |]. intros Hlt.
    unfold patchStatus, cache_get. rewrite Hc'. simpl.
    apply N.ltb_lt in Hlt. by rewrite Hlt.
  - intros Hge. unfold patchStatus, cache_get. rewrite Hc'. simpl.
    apply N.ltb_ge in Hge. by rewrite Hge.
  - intros id Hid Hnone. unfold patchStatus, cache_get.
    rewrite (Hother id Hid), Hc. unfold cache_put.
    by rewrite lookup_insert_ne, Hnone.
Qed.

Lemma C8_five_minutes_witness :
  (5 * MINUTE = 300000)%N
  ∧ cache (editText "tenant" "text" "patch" 0 ∅ ∅ scenario)
    = cache_put "patch" (fresh (dom (∅ : gmap nat PatchStatus))) 300000 0 ∅
  ∧ (∀ i err result s1 s2,
       step "tenant" "text" "patch" (Reply i err result) s1 = Some s2 →
       cache s2 = cache_put "patch" (details s1) 300000 (now s1) (cache s1))
  ∧ cache scenario_end !! "patch"
    = Some {| value := details scenario_end;
              expire := lastWrite 0 0 scenario_replies + 300000 |}
  ∧ (∃ d, heap scenario_end !! details scenario_end = Some d
        ∧ ((now scenario_end < lastWrite 0 0 scenario_replies + 300000)%N →
           patchStatus "patch" scenario_end = Some d))
  ∧ ((lastWrite 0 0 scenario_replies + 300000 ≤ now scenario_end)%N →
     patchStatus "patch" scenario_end = None)
  ∧ (∀ id, id ≠ "patch" → (∅ : gmap string CacheEntry) !! id = None →
     patchStatus id scenario_end = None).
Proof.
  apply (C8_five_minutes "tenant" "text" "patch" scenario 0 ∅ ∅ scenario_replies).
  vm_compute. reflexivity.
Defined.

(** The record of the scenario is last written at 2000 ms: it is still
    there 299999 ms later and gone 300000 ms later. *)
Example status_expires :
  patchStatus "patch"
    <$> run "tenant" "text" "patch" (scenario_replies ++ [Elapse 299999]) scenario_start
  = Some (Some {| status := COMPLETE; success := 2; error := 1 |})
  ∧ patchStatus "patch"
      <$> run "tenant" "text" "patch" (scenario_replies ++ [Elapse 300000]) scenario_start
    = Some None
  ∧ patchStatus "other" scenario_end = None.
Proof. by vm_compute. Qed.

(** ** Single operations *)

(** What the settling of item [i] as an error does to the status record
    and what it leaves alone. *)
Lemma failed_frame patchid put i patchoperation e s d :
  heap s !! details s = Some d →
  i < length (results s) →
  let s' := failed patchid put i patchoperation e s in
  results s' !! i = Some (Some (PatchError e patchoperation))
  ∧ (∀ j, j ≠ i → results s' !! j = results s !! j)
  ∧ heap s' !! details s'
    = Some {| status := status d; success := success d; error := S (error d) |}
  ∧ calls s' = calls s
  ∧ inflight s' = inflight s
  ∧ queue s' = queue s
  ∧ errored s' = errored s
  ∧ finished s' = finished s.
Proof.
  intros Hd Hi. destruct put; simpl.
  all: rewrite lookup_alter_eq, Hd, list_lookup_insert_eq by done.
  all: repeat split; try done.
  all: intros j Hj; by rewrite list_lookup_insert_ne.
Qed.

(** An operation the router does not support: the path is not a known
    target, or the verb is not one the target accepts. *)
Definition unsupported (patchoperation : JSValue) : Prop :=
  ∃ path op,
    get patchoperation "path" = Some path
    ∧ get patchoperation "op" = Some op
    ∧ ((is_string path "/classes" = true
        ∧ is_string op "add" = false ∧ is_string op "remove" = false)
       ∨ (is_string path "/metadata" = true ∧ is_string op "replace" = false)
       ∨ (is_string path "/classes" = false ∧ is_string path "/metadata" = false)).

Lemma get_total v k w k' : get v k = Some w → is_Some (get v k').
Proof. destruct v; simpl; try discriminate; eauto. Qed.

Lemma is_string_inj v a b : is_string v a = true → is_string v b = true → a = b.
Proof.
  destruct v; simpl; try discriminate.
  intros Ha%String.eqb_eq Hb%String.eqb_eq. congruence.
Qed.

Lemma applyPatch_unsupported tenantid textid patchid i patchoperation s :
  unsupported patchoperation →
  ∃ put, applyPatch tenantid textid patchid i patchoperation s
         = Some (failed patchid put i patchoperation (invalid "Unsupported operation") s).
Proof.
  intros (path & op & Hpath & Hop & Hcase).
  destruct (get_total _ _ _ "value" Hop) as [value Hvalue].
  unfold applyPatch. rewrite Hpath. simpl.
  destruct Hcase as [(Hc & Ha & Hr) | [(Hm & Hr) | (Hc & Hm)]].
  - rewrite Hc. unfold patchTextClasses. rewrite Hop, Hvalue, Ha, Hr.
    by exists true.
  - assert (Hc : is_string path "/classes" = false).
    { destruct (is_string path "/classes") eqn:E; [| done].
      by pose proof (is_string_inj _ _ _ E Hm). }
    rewrite Hc, Hm. unfold patchTextMetadata. rewrite Hop, Hvalue, Hr.
    by exists true.
  - rewrite Hc, Hm. by exists false.
Qed.

(** C5: an operation whose path is a known target but whose verb that
    target does not accept, or whose path is not a known target, settles at
    once when the iterator is called on it: its slot of the result array
    receives a [PatchError] for "Unsupported operation" that carries the
    operation; the status record has its error counter one higher than
    before, and the same success counter and status; no call is made on the
    store and nothing is left waiting for it; and the slots of the other
    operations, the operations waiting for the store, the queue and the
    course of the batch stay as they were. *)
Theorem C5_unsupported_settles_at_once tenantid textid patchid i patchoperation s d :
  unsupported patchoperation →
  heap s !! details s = Some d →
  i < length (results s) →
  ∃ s' d',
      applyPatch tenantid textid patchid i patchoperation s = Some s'
      ∧ results s' !! i
        = Some (Some (PatchError (invalid "Unsupported operation") patchoperation))
      ∧ (∀ j, j ≠ i → results s' !! j = results s !! j)
      ∧ heap s' !! details s' = Some d'
      ∧ error d' = S (error d)
      ∧ success d' = success d
      ∧ status d' = status d
      ∧ calls s' = calls s
      ∧ inflight s' = inflight s
      ∧ queue s' = queue s
      ∧ errored s' = errored s
      ∧ finished s' = finished s.
Proof.
  intros Hu Hd Hi.
  destruct (applyPatch_unsupported tenantid textid patchid i patchoperation s Hu)
    as [put ->].
  destruct (failed_frame patchid put i patchoperation
              (invalid "Unsupported operation") s d Hd Hi)
    as (H1 & H2 & H3 & H4 & H5 & H6 & H7 & H8).
  eexists _, _. split; [reflexivity |].
  split; [exact H1 |]. split; [exact H2 |]. split; [exact H3 |].
  simpl. repeat split; assumption.
Qed.

(** The scenario of the specification at the moment the iterator is called
    on its third operation: the first two operations are waiting for the
    store, and the third is the next item. *)
Definition scenario_before_bogus : Exec :=
  default (created "patch" 0 ∅ ∅ scenario)
    (s0 ← applyPatch "tenant" "text" "patch" 0 op_add
            (with_queue [op_replace; op_bogus] 1 (created "patch" 0 ∅ ∅ scenario));
     s1 ← applyPatch "tenant" "text" "patch" 1 op_replace (with_queue [op_bogus] 2 s0);
     Some (with_queue [] 3 s1)).

(** That state has the two siblings in flight, their calls made and no
    slot filled, and the iterator takes it to the state in which [editText]
    returns. *)
Example scenario_before_bogus_state :
  inflight scenario_before_bogus = {[ 0 := op_add; 1 := op_replace ]}
  ∧ length (calls scenario_before_bogus) = 2
  ∧ results scenario_before_bogus = [None; None; None]
  ∧ patchStatus "patch" scenario_before_bogus
    = Some {| status := RUNNING; success := 0; error := 0 |}
  ∧ applyPatch "tenant" "text" "patch" 2 op_bogus scenario_before_bogus
    = Some scenario_start.
Proof. vm_compute. repeat split; reflexivity. Qed.

Lemma C5_unsupported_settles_at_once_witness :
  let s := scenario_before_bogus in
  ∃ s' d',
      applyPatch "tenant" "text" "patch" 2 op_bogus s = Some s'
      ∧ results s' !! 2
        = Some (Some (PatchError (invalid "Unsupported operation") op_bogus))
      ∧ (∀ j, j ≠ 2 → results s' !! j = results s !! j)
      ∧ heap s' !! details s' = Some d'
      ∧ error d' = S (error {| status := RUNNING; success := 0; error := 0 |})
      ∧ success d' = success {| status := RUNNING; success := 0; error := 0 |}
      ∧ status d' = status {| status := RUNNING; success := 0; error := 0 |}
      ∧ calls s' = calls s
      ∧ inflight s' = inflight s
      ∧ queue s' = queue s
      ∧ errored s' = errored s
      ∧ finished s' = finished s.
Proof.
  intros s.
  apply (C5_unsupported_settles_at_once "tenant" "text" "patch" 2 op_bogus s).
  - exists (JStr "/nope"), (JStr "bogus").
    split; [reflexivity |]. split; [reflexivity |]. right; right. split; reflexivity.
  - vm_compute. reflexivity.
  - vm_compute. lia.
Defined.

(** C4: for an operation on "/classes" whose verb is "add" or "remove" and
    whose value is an array with an element that has no string [id], the
    handler calls its callback with the error "Invalid value array" and the
    store is not called: the iterator settles the operation as that error,
    and the calls made on the store and the operations waiting for it are
    the same before and after. *)
Theorem C4_no_partial_set tenantid textid patchid patchoperation path op elems bad :
  get patchoperation "path" = Some path →
  is_string path "/classes" = true →
  get patchoperation "op" = Some op →
  is_string op "add" = true ∨ is_string op "remove" = true →
  get patchoperation "value" = Some (JArr elems) →
  bad ∈ elems →
  (∀ s, get bad "id" ≠ Some (JStr s)) →
  patchTextClasses tenantid textid patchoperation
  = Callback (invalid "Invalid value array")
  ∧ ∀ i s,
      let s' := failed patchid true i patchoperation (invalid "Invalid value array") s in
      applyPatch tenantid textid patchid i patchoperation s = Some s'
      ∧ calls s' = calls s
      ∧ inflight s' = inflight s.
Proof.
  intros Hpath Hc Hop Hverb Hvalue Hin Hbad.
  pose proof (patchTextClasses_invalid tenantid textid _ _ _ _ Hop Hverb Hvalue Hin Hbad)
    as Hcb.
  split; [done |]. intros i s. simpl. repeat split.
  unfold applyPatch. rewrite Hpath. simpl. by rewrite Hc, Hcb.
Qed.

(** An "add" that names one class and one thing that is not a class. *)
Definition op_add_partial : JSValue :=
  JObj [("op", JStr "add"); ("path", JStr "/classes");
        ("value", JArr [JObj [("id", JStr "c1")]; JObj [("name", JStr "c2")]])].

Lemma C4_no_partial_set_witness :
  patchTextClasses "tenant" "text" op_add_partial
  = Callback (invalid "Invalid value array")
  ∧ ∀ i s,
      let s' := failed "patch" true i op_add_partial (invalid "Invalid value array") s in
      applyPatch "tenant" "text" "patch" i op_add_partial s = Some s'
      ∧ calls s' = calls s
      ∧ inflight s' = inflight s.
Proof.
  apply (C4_no_partial_set "tenant" "text" "patch" op_add_partial
           (JStr "/classes") (JStr "add")
           [JObj [("id", JStr "c1")]; JObj [("name", JStr "c2")]]
           (JObj [("name", JStr "c2")])).
  - reflexivity.
  - reflexivity.
  - reflexivity.
  - left. reflexivity.
  - reflexivity.
  - apply list_elem_of_In. simpl. tauto.
  - intros s. simpl. discriminate.
Defined.

(** C10: for an operation on "/classes" whose verb is "add" or "remove" and
    whose value is absent or not an array, the handler raises instead of
    calling its callback, and so does the iterator.  The loop of [mapLimit]
    is left with the operation holding a slot, the status record and the
    result array untouched.  In every state a batch with such an operation
    can reach, the slot of that operation is a hole, so neither counter
    counts it, and the final callback has not run. *)
Theorem C10_non_array_value_raises tenantid textid patchid patchoperation path op v :
  get patchoperation "path" = Some path →
  is_string path "/classes" = true →
  get patchoperation "op" = Some op →
  is_string op "add" = true ∨ is_string op "remove" = true →
  get patchoperation "value" = Some v →
  (∀ elems, v ≠ JArr elems) →
  patchTextClasses tenantid textid patchoperation = Raise
  ∧ (∀ i s, applyPatch tenantid textid patchid i patchoperation s = None)
  ∧ (∀ rest s, running s < limit →
       replenish tenantid textid patchid (patchoperation :: rest) s
       = with_raised (S (raised s)) (with_queue rest (S (next s)) s))
  ∧ (∀ ops j s,
       ops !! j = Some patchoperation →
       reachable tenantid textid patchid ops s →
       results s !! j = Some None ∧ finished s = false).
Proof.
  intros Hpath Hc Hop Hverb Hvalue Hv.
  pose proof (patchTextClasses_raises tenantid textid _ _ _ Hop Hverb Hvalue Hv) as Hraise.
  assert (Happly : ∀ i s, applyPatch tenantid textid patchid i patchoperation s = None).
  { intros i s. unfold applyPatch. rewrite Hpath. simpl. by rewrite Hc, Hraise. }
  split; [done |]. split; [done |]. split.
  - intros rest s Hlt. simpl.
    destruct (Nat.ltb_spec (running s) limit) as [_ | Hge]; [| lia].
    by rewrite Happly.
  - intros ops j s Hj Hr.
    destruct (reachable_Inv _ _ _ _ _ Hr) as [HI _].
    destruct (reachable_Prov _ _ _ _ _ Hr) as [HP _].
    assert (Hhole : results s !! j = Some None).
    { pose proof (lookup_lt_Some _ _ _ Hj) as Hlt.
      rewrite <- (inv_length ops s HI) in Hlt.
      destruct (lookup_lt_is_Some_2 _ _ Hlt) as [[o|] Ho]; [| done].
      destruct (HP j o Ho) as (op' & Hop' & Hnr & _).
      assert (op' = patchoperation) as -> by congruence.
      apply (applyPatch_None tenantid textid patchid 0 patchoperation s) in Happly.
      congruence. }
    split; [done |].
    destruct (finished s) eqn:Hf; [| done].
    pose proof (finished_all_settled ops s HI Hf) as Hall.
    pose proof (hole_unsettled _ _ Hhole). rewrite (inv_length ops s HI) in *. lia.
Qed.

(** An "add" whose value is a single object instead of an array. *)
Definition op_add_object : JSValue :=
  JObj [("op", JStr "add"); ("path", JStr "/classes");
        ("value", JObj [("id", JStr "c1")])].

Lemma C10_non_array_value_raises_witness :
  patchTextClasses "tenant" "text" op_add_object = Raise
  ∧ (∀ i s, applyPatch "tenant" "text" "patch" i op_add_object s = None)
  ∧ (∀ rest s, running s < limit →
       replenish "tenant" "text" "patch" (op_add_object :: rest) s
       = with_raised (S (raised s)) (with_queue rest (S (next s)) s))
  ∧ (∀ ops j s,
       ops !! j = Some op_add_object →
       reachable "tenant" "text" "patch" ops s →
       results s !! j = Some None ∧ finished s = false).
Proof.
  apply (C10_non_array_value_raises "tenant" "text" "patch" op_add_object
           (JStr "/classes") (JStr "add") (JObj [("id", JStr "c1")])).
  - reflexivity.
  - reflexivity.
  - reflexivity.
  - left. reflexivity.
  - reflexivity.
  - intros elems. discriminate.
Defined.

(** A batch that starts with such an operation: the loop is left at once,
    the operation behind it is never started and the status stays
    RUNNING. *)
Example raising_batch :
  let s := editText "tenant" "text" "patch" 0 ∅ ∅ [op_add_object; op_bogus] in
  raised s = 1 ∧ queue s = [op_bogus] ∧ results s = [None; None]
  ∧ patchStatus "patch" s = Some {| status := RUNNING; success := 0; error := 0 |}.
Proof. by vm_compute. Qed.

(** ** The names and payloads of the messages *)

Lemma append_assoc (a b c : string) : (a +:+ b) +:+ c = a +:+ b +:+ c.
Proof.
  induction a as [|x a IH]; [done |].
  change (String x ((a +:+ b) +:+ c) = String x (a +:+ b +:+ c)). by rewrite IH.
Qed.

(** The first part of an event name: the path of the operation without a
    leading slash, or "unknown" when there is no operation or its path is
    missing, empty or not a string. *)
Definition aspect (operation : JSValue) : string :=
  match get operation "path" with
  | Some (JStr (String c rest)) => if Ascii.eqb c "/" then rest else String c rest
  | _ => "unknown"
  end.

(** The second part: the verb of the operation converted to a string, or
    "unknown" when there is no operation or its verb is missing or falsy;
    [None] when the conversion raises. *)
Definition verb (operation : JSValue) : option string :=
  match get operation "op" with
  | Some op => if truthy op then toString op else Some "unknown"
  | None => Some "unknown"
  end.

Lemma socketMessageNameBuilder_parts operation :
  socketMessageNameBuilder operation
  = (v ← verb operation; Some (aspect operation +:+ ":" +:+ v)).
Proof.
  unfold socketMessageNameBuilder, aspect, verb.
  change ("" +:+ ?x) with x.
  destruct (truthy operation) eqn:Ht.
  - assert (Hp : match get operation "path" with
                 | Some (JStr path) =>
                     if truthy (JStr path)
                     then match path with
                          | String "/"%char rest => rest
                          | _ => path
                          end
                     else "unknown"
                 | _ => "unknown"
                 end
                 = match get operation "path" with
                   | Some (JStr (String c rest)) =>
                       if Ascii.eqb c "/" then rest else String c rest
                   | _ => "unknown"
                   end).
    { destruct (get operation "path") as [[| | | |path| |]|]; try reflexivity.
      destruct path as [|c rest]; [reflexivity |].
      destruct c as [[] [] [] [] [] [] [] []]; reflexivity. }
    rewrite Hp.
    destruct (get operation "op") as [op|]; simpl; [| by rewrite append_assoc].
    destruct (truthy op); simpl; [| by rewrite append_assoc].
    destruct (toString op); simpl; [by rewrite append_assoc | done].
  - destruct operation as [| |[]|n|s| |]; try discriminate; reflexivity.
Qed.

(** Every message [forEach] sends belongs to an outcome of the array for
    which [socketResponseBuilder] returned a payload and
    [socketMessageNameBuilder] a name. *)
Lemma forEach_elem textid data name response :
  (name, response) ∈ forEach textid data →
  ∃ result operation built,
    Some result ∈ data
    ∧ socketResponseBuilder textid result = Some (Some response)
    ∧ operationOf result = Some operation
    ∧ socketMessageNameBuilder operation = Some built
    ∧ name = "text:update:" +:+ built.
Proof.
  induction data as [|[result|] data IH]; simpl.
  - intros H. by apply elem_of_nil in H.
  - destruct (socketResponseBuilder textid result) as [[r|]|] eqn:Hb.
    + destruct (operationOf result) as [operation|] eqn:Hop; simpl;
        [| intros H; by apply elem_of_nil in H].
      destruct (socketMessageNameBuilder operation) as [built|] eqn:Hn;
        [| intros H; by apply elem_of_nil in H].
      intros [[= -> ->] | Hin]%elem_of_cons.
      * exists result, operation, built. repeat split; [by left | done..].
      * destruct (IH Hin) as (res & op & b & ? & ? & ? & ? & ?).
        exists res, op, b. repeat split; [by right | done..].
    + intros Hin. destruct (IH Hin) as (res & op & b & ? & ? & ? & ? & ?).
      exists res, op, b. repeat split; [by right | done..].
    + intros H. by apply elem_of_nil in H.
  - intros Hin. destruct (IH Hin) as (res & op & b & ? & ? & ? & ? & ?).
    exists res, op, b. repeat split; [by right | done..].
Qed.

Section Sent.

Variables tenantid textid patchid : string.
Variable ops : list JSValue.

(** Nothing is sent before the final callback; what it sends is the
    [forEach] of the result array. *)
Definition Sent (s : Exec) : Prop :=
  sent s = if finished s then forEach textid (results s) else [].

Lemma replenish_Sent todo : ∀ s,
  Inv ops s → Sent s → queue s = todo →
  Sent (replenish tenantid textid patchid todo s).
Proof.
  induction todo as [|patchoperation rest IH]; intros s HI HS Hq; simpl.
  - destruct (running _ =? 0)%nat; [| done].
    unfold handlePatchResponse. simpl.
    destruct (finished s) eqn:Hf; unfold Sent in *; simpl; rewrite ?Hf;
      rewrite Hf in HS; by rewrite HS.
  - destruct (Nat.ltb_spec (running s) limit) as [Hlt | Hge]; [| done].
    destruct (Inv_head ops s _ _ HI Hq) as (_ & _ & _ & _ & Hfin).
    destruct (applyPatch_cases tenantid textid patchid (next s) patchoperation
                (with_queue rest (S (next s)) s))
      as [-> | [(put & e & ->) | (call & ->)]]; [done | |].
    + pose proof (Inv_failed patchid ops s put _ _ e HI Hq) as HI'.
      rewrite (inv_errored _ _ HI'). apply IH; [done | | by destruct put].
      unfold Sent in *. destruct put; simpl; by rewrite Hfin in *.
    + pose proof (Inv_launched ops s _ _ call HI Hq Hlt) as HI'.
      rewrite (inv_errored _ _ HI'). by apply IH.
Qed.

Lemma reachable_Sent s :
  reachable tenantid textid patchid ops s → Sent s.
Proof.
  intros (now0 & heap0 & cache0 & es & Hrun).
  pose proof (editText_Inv tenantid textid patchid ops now0 heap0 cache0) as [HI _].
  assert (HS : Sent (editText tenantid textid patchid now0 heap0 cache0 ops)).
  { unfold editText. apply replenish_Sent; [apply Inv_created | done..]. }
  revert HI HS Hrun.
  generalize (editText tenantid textid patchid now0 heap0 cache0 ops).
  induction es as [|e es IH]; intros s0 HI HS; simpl.
  - by intros [= <-].
  - destruct (step tenantid textid patchid e s0) as [s1|] eqn:Hstep; simpl; [| done].
    destruct (step_Inv tenantid textid patchid ops e s0 s1 Hstep HI) as [HI1 _].
    apply IH; [done |]. clear IH.
    destruct e as [i err result | dt]; simpl in Hstep.
    + destruct (inflight s0 !! i) as [patchoperation|] eqn:Hi; simpl in Hstep; [| done].
      pose proof (Inv_answered textid patchid ops s0 i patchoperation err result HI Hi)
        as HI'.
      assert (Hfin : finished s0 = false).
      { destruct (finished s0) eqn:Hf; [| done].
        destruct (inv_finished ops s0 HI Hf) as [_ Hr]. unfold running in Hr.
        assert (size (inflight s0) = 0) as H0%map_size_empty_inv by lia.
        by rewrite H0 in Hi. }
      unfold answered in HI'.
      destruct err as [e|]; simpl in *; rewrite (inv_errored _ _ HI) in Hstep;
        injection Hstep as <-; (apply replenish_Sent; [done | | done]);
        unfold Sent in *; simpl; by rewrite Hfin in *.
    + by injection Hstep as <-.
Qed.

End Sent.

(** The event name in the words of the specification: the path of the
    operation without a leading slash, or "unknown" when the path is
    missing or not a string; a colon; the verb of the operation, or
    "unknown" when it is absent.  There is no name where the verb has no
    string. *)
Definition claimed_name (operation : JSValue) : option string :=
  v ← match get operation "op" with
      | Some JUndefined | None => Some "unknown"
      | Some op => toString op
      end;
  Some (match get operation "path" with
        | Some (JStr (String c rest)) => if Ascii.eqb c "/" then rest else String c rest
        | Some (JStr "") => ""
        | _ => "unknown"
        end +:+ ":" +:+ v).

(** The scenario of the specification, once the store has answered: the
    three messages are published under names that are not the names the
    specification gives to the three operations, and the name of the third
    message is not the specified name of any operation of the batch. *)
Lemma C6_counterexample :
  (sent scenario_end).*1
  = ["text:update:unknown:unknown"; "text:update:unknown:unknown";
     "text:update:nope:bogus"]
  ∧ claimed_name <$> scenario
    = [Some "classes:add"; Some "metadata:replace"; Some "nope:bogus"]
  ∧ ¬ (∀ name response,
         (name, response) ∈ sent scenario_end →
         ∃ operation, operation ∈ scenario ∧ claimed_name operation = Some name).
Proof.
  split; [by vm_compute |]. split; [by vm_compute |].
  intros H.
  destruct (H "text:update:nope:bogus"
              {| resp_id := "text";
                 resp_error := Some (PatchError (invalid "Unsupported operation") op_bogus);
                 resp_value := None; resp_classes := None |})
    as (operation & Hin & Hname).
  { apply list_elem_of_In. vm_compute. tauto. }
  apply list_elem_of_In in Hin. simpl in Hin.
  destruct Hin as [<- | [<- | [<- | []]]]; vm_compute in Hname; discriminate.
Qed.

(** C6 (amended): every message a batch sends belongs to an outcome of the
    result array, and its name is "text:update:" followed by the aspect, a
    colon and the verb of the operation read from the [operation] property
    of that outcome: the wrapped operation for a [PatchError], whatever the
    result of the store has under [operation] for a success.  The aspect is
    the path without a leading slash, or "unknown" when the operation or
    its path is missing, empty or not a string; the verb is the [op]
    converted to a string as a string concatenation converts it, or
    "unknown" when the operation or its [op] is missing or falsy.  A
    message is sent only where that conversion gives a string. *)
Theorem C6_event_name tenantid textid patchid ops s name response :
  reachable tenantid textid patchid ops s →
  (name, response) ∈ sent s →
  ∃ result operation v,
    Some result ∈ results s
    ∧ socketResponseBuilder textid result = Some (Some response)
    ∧ operationOf result = Some operation
    ∧ (∀ e op, result = PatchError e op → operation = op)
    ∧ (∀ r, result = Result r → get r "operation" = Some operation)
    ∧ verb operation = Some v
    ∧ name = "text:update:" +:+ aspect operation +:+ ":" +:+ v.
Proof.
  intros Hr Hin. pose proof (reachable_Sent _ _ _ _ _ Hr) as HS.
  unfold Sent in HS. rewrite HS in Hin.
  destruct (finished s); [| by apply elem_of_nil in Hin].
  destruct (forEach_elem _ _ _ _ Hin)
    as (result & operation & built & Hres & Hb & Hop & Hn & ->).
  rewrite socketMessageNameBuilder_parts in Hn.
  destruct (verb operation) as [v|] eqn:Hv; simpl in Hn; [| done].
  injection Hn as <-.
  exists result, operation, v.
  split; [done |]. split; [done |]. split; [done |].
  split; [intros e op ->; simpl in Hop; congruence |].
  split; [by intros r -> |]. done.
Qed.

Definition bogus_message : string * Response :=
  ("text:update:nope:bogus",
   {| resp_id := "text";
      resp_error := Some (PatchError (invalid "Unsupported operation") op_bogus);
      resp_value := None; resp_classes := None |}).

Lemma C6_event_name_witness :
  ∃ result operation v,
    Some result ∈ results scenario_end
    ∧ socketResponseBuilder "text" result = Some (Some bogus_message.2)
    ∧ operationOf result = Some operation
    ∧ (∀ e op, result = PatchError e op → operation = op)
    ∧ (∀ r, result = Result r → get r "operation" = Some operation)
    ∧ verb operation = Some v
    ∧ bogus_message.1 = "text:update:" +:+ aspect operation +:+ ":" +:+ v.
Proof.
  apply (C6_event_name "tenant" "text" "patch" scenario scenario_end
           bogus_message.1 bogus_message.2).
  - exists 0%N, ∅, ∅, scenario_replies. vm_compute. reflexivity.
  - apply list_elem_of_In. vm_compute. tauto.
Defined.

(** The verb in the name is the string JavaScript gives the [op]: a large
    number is printed in exponent form, an array as its elements joined by
    commas, an object as "[object Object]"; an object with a [toString]
    of its own cannot be converted, and then no name is built. *)
Example verbs_as_strings :
  let named op := socketMessageNameBuilder (JObj [("op", op); ("path", JStr "/nope")]) in
  named (JNum (10 ^ 21)) = Some "nope:1e+21"
  ∧ named (JNum (2 ^ 64)) = Some "nope:18446744073709552000"
  ∧ named (JNum (-12)) = Some "nope:-12"
  ∧ named (JBool true) = Some "nope:true"
  ∧ named (JArr [JStr "a"; JNull; JNum 1]) = Some "nope:a,,1"
  ∧ named (JObj []) = Some "nope:[object Object]"
  ∧ named (JNum 0) = Some "nope:unknown"
  ∧ named (JObj [("toString", JNum 1)]) = None.
Proof. vm_compute. repeat split; reflexivity. Qed.


Lemma hasOwn_get v k : hasOwn v k = true → is_Some (get v k).
Proof. destruct v; simpl; try discriminate; eauto. Qed.

Lemma hasDeep_get2 v k1 k2 :
  hasDeep v [k1; k2] = true → ∃ w x, get v k1 = Some w ∧ get w k2 = Some x.
Proof.
  simpl. intros [H1 H2]%andb_true_iff.
  destruct (get v k1) as [w|]; [| done].
  apply andb_true_iff in H2 as [H2 _].
  destruct (hasOwn_get w k2 H2) as [x Hx]. eauto.
Qed.





(** With a property named "metadata.value" and no [metadata] the payload
    cannot be built: the loop raises there, and the error that follows in
    the array is not reported. *)
Example dotted_without_metadata :
  let result := JObj [("metadata.value", JStr "x")] in
  has result ["metadata"; "value"] = true
  ∧ socketResponseBuilder "text" (Result result) = None
  ∧ forEach "text"
      [Some (Result result);
       Some (PatchError (invalid "Unsupported operation") op_bogus)]
    = [].
Proof. vm_compute. repeat split; reflexivity. Qed.

(** ** The scenario of the specification, for every order of replies *)

Lemma replenish_nil_fields tenantid textid patchid s :
  let s' := replenish tenantid textid patchid [] s in
  results s' = results s ∧ raised s' = raised s ∧ inflight s' = inflight s
  ∧ next s' = next s ∧ queue s' = [].
Proof.
  simpl. destruct (running _ =? 0)%nat; [| done].
  unfold handlePatchResponse. simpl. by destruct (finished s).
Qed.

(** What the scenario keeps true while the store answers without errors:
    nothing raised, nothing queued, the third slot holds the error of the
    unsupported operation and the first two hold no error. *)
Definition ScenarioInv (s : Exec) : Prop :=
  raised s = 0 ∧ queue s = [] ∧ next s = 3
  ∧ (∃ e, results s !! 2 = Some (Some (PatchError e op_bogus)))
  ∧ ∀ j o, j < 2 → results s !! j = Some (Some o) → is_error o = false.

Lemma ScenarioInv_start tenantid textid patchid now0 heap0 cache0 :
  ScenarioInv (editText tenantid textid patchid now0 heap0 cache0 scenario).
Proof.
  repeat split.
  - by exists (invalid "Unsupported operation").
  - intros [|[|j]] o Hj; [by vm_compute | by vm_compute | lia].
Qed.

Lemma ScenarioInv_step tenantid textid patchid ops i result s s' :
  Inv ops s → ScenarioInv s →
  step tenantid textid patchid (Reply i None result) s = Some s' →
  ScenarioInv s'.
Proof.
  intros HI (Hr & Hq & Hn & [e He] & Hok). simpl.
  destruct (inflight s !! i) as [patchoperation|] eqn:Hi; simpl; [| done].
  destruct (inv_inflight ops s HI _ _ Hi) as (Hlt & Hhole & _).
  rewrite (inv_errored ops s HI), Hq. intros [= <-].
  assert (Hfill : ∃ e', <[i := Some (Result result)]> (results s) !! 2
                        = Some (Some (PatchError e' op_bogus))).
  { exists e. rewrite list_lookup_insert_ne; [done |]. intros ->. congruence. }
  assert (Hrest : ∀ j o, j < 2 →
            <[i := Some (Result result)]> (results s) !! j = Some (Some o) →
            is_error o = false).
  { intros j o Hj [(<- & [= <-] & _) | [_ Hjo]]%list_lookup_insert_Some; [done |].
    by apply (Hok j). }
  destruct (running _ =? 0)%nat; [unfold handlePatchResponse; simpl; destruct (finished s) |];
    by repeat split.
Qed.

Lemma ScenarioInv_run tenantid textid patchid es : ∀ s s',
  (∀ i err result, Reply i err result ∈ es → err = None) →
  Inv scenario s → ScenarioInv s →
  run tenantid textid patchid es s = Some s' →
  ScenarioInv s'.
Proof.
  induction es as [|e es IH]; intros s s' Hok HI HS; simpl.
  - by intros [= <-].
  - destruct (step tenantid textid patchid e s) as [s1|] eqn:Hstep; simpl; [| done].
    destruct (step_Inv tenantid textid patchid scenario e s s1 Hstep HI) as [HI1 _].
    apply IH; [| done |].
    + intros i err result Hin. apply (Hok i err result). by right.
    + destruct e as [i err result | dt].
      * assert (err = None) as -> by (apply (Hok i err result); by left).
        exact (ScenarioInv_step _ _ _ scenario i result s s1 HI HS Hstep).
      * by injection Hstep as <-.
Qed.

(** The scenario of the specification with the store answering both calls
    without an error: the status record returned in the end is COMPLETE
    with two successes and one error, not ERROR. *)
Lemma C2_counterexample :
  run "tenant" "text" "patch" scenario_replies
    (editText "tenant" "text" "patch" 0 ∅ ∅ scenario) = Some scenario_end
  ∧ inflight scenario_end = ∅
  ∧ patchStatus "patch" scenario_end
    = Some {| status := COMPLETE; success := 2; error := 1 |}
  ∧ patchStatus "patch" scenario_end
    ≠ Some {| status := ERROR; success := 2; error := 1 |}.
Proof.
  split; [by vm_compute |]. split; [by vm_compute |].
  assert (H : patchStatus "patch" scenario_end
              = Some {| status := COMPLETE; success := 2; error := 1 |})
    by (by vm_compute).
  split; [done |]. rewrite H. discriminate.
Qed.

(** C2 (amended): for the batch of the scenario, whatever the instants and
    the order in which the store answers its two calls, provided it answers
    them without an error: once both have been answered the status record
    is COMPLETE with two successes and one error, and [patchStatus] returns
    it for five minutes after the last answer. *)
Theorem C2_scenario_complete tenantid textid patchid now0 heap0 cache0 es s :
  run tenantid textid patchid es
    (editText tenantid textid patchid now0 heap0 cache0 scenario) = Some s →
  (∀ i err result, Reply i err result ∈ es → err = None) →
  inflight s = ∅ →
  heap s !! details s = Some {| status := COMPLETE; success := 2; error := 1 |}
  ∧ ((now s < lastWrite now0 now0 es + 300000)%N →
     patchStatus patchid s = Some {| status := COMPLETE; success := 2; error := 1 |}).
Proof.
  intros Hrun Hok Hempty.
  assert (Hr : reachable tenantid textid patchid scenario s)
    by (by exists now0, heap0, cache0, es).
  destruct (reachable_Inv _ _ _ _ _ Hr) as [HI HB].
  destruct (editText_Inv tenantid textid patchid scenario now0 heap0 cache0) as [HI0 _].
  pose proof (ScenarioInv_run tenantid textid patchid es _ s Hok HI0
                (ScenarioInv_start tenantid textid patchid now0 heap0 cache0) Hrun)
    as (Hraised & Hq & Hn & [e He] & Hsucc).
  assert (Hfin : finished s = true).
  { destruct HB as [? | Hbusy]; [done |].
    unfold running in Hbusy. rewrite Hempty, map_size_empty, Hraised in Hbusy. lia. }
  destruct (inv_heap scenario s HI) as (d & Hd & Hs & Herr & Hst).
  rewrite Hfin in Hst.
  pose proof (inv_account scenario s HI) as Hacc.
  rewrite Hempty, map_size_empty, Hraised, Hn in Hacc.
  pose proof (inv_length scenario s HI) as Hlen.
  assert (Hcount : successes (results s) = 2 ∧ failures (results s) = 1).
  { destruct (results s) as [|r0 [|r1 [|r2 [|? ?]]]]; try discriminate.
    simpl in He. injection He as ->.
    pose proof (Hsucc 0) as H0. pose proof (Hsucc 1) as H1.
    unfold settled in Hacc.
    destruct r0 as [[|]|], r1 as [[|]|]; simpl in *;
      try lia; try (by specialize (H0 _ ltac:(lia) eq_refl));
      try (by specialize (H1 _ ltac:(lia) eq_refl)). }
  destruct Hcount as [Hs2 He1].
  assert (Hrec : d = {| status := COMPLETE; success := 2; error := 1 |}).
  { destruct d as [st su er]. simpl in *. congruence. }
  subst d. split; [done |]. intros Hlt.
  destruct (editText_wrote tenantid textid patchid now0 heap0 cache0 scenario)
    as (Hn0 & Hd0 & Hc0).
  destruct (run_cache tenantid textid patchid es _ s now0 Hrun) as (Hd' & Hc' & _).
  { rewrite Hc0, Hd0. unfold cache_put. by rewrite lookup_insert_eq. }
  rewrite Hn0 in Hc'. change (5 * MINUTE)%N with 300000%N in Hc'.
  unfold patchStatus, cache_get. rewrite Hc'. simpl.
  apply N.ltb_lt in Hlt. rewrite Hlt. simpl. by rewrite <- Hd'.
Qed.

Lemma C2_scenario_complete_witness :
  heap scenario_end !! details scenario_end
  = Some {| status := COMPLETE; success := 2; error := 1 |}
  ∧ ((now scenario_end < lastWrite 0 0 scenario_replies + 300000)%N →
     patchStatus "patch" scenario_end
     = Some {| status := COMPLETE; success := 2; error := 1 |}).
Proof.
  apply (C2_scenario_complete "tenant" "text" "patch" 0 ∅ ∅ scenario_replies).
  - vm_compute. reflexivity.
  - intros i err result Hin. apply list_elem_of_In in Hin. simpl in Hin.
    destruct Hin as [H | [H | [H | []]]]; congruence.
  - vm_compute. reflexivity.
Defined.

(** ** Every batch on which the iterator never raises comes to its end *)

Section Completion.

Variables tenantid textid patchid : string.
Variable ops : list JSValue.

Lemma run_snoc es e : ∀ s,
  run tenantid textid patchid (es ++ [e]) s
  = run tenantid textid patchid es s ≫= step tenantid textid patchid e.
Proof.
  induction es as [|e' es IH]; intros s; simpl.
  - by destruct (step tenantid textid patchid e s).
  - destruct (step tenantid textid patchid e' s); simpl; [apply IH | done].
Qed.

Lemma reachable_step e s s' :
  reachable tenantid textid patchid ops s →
  step tenantid textid patchid e s = Some s' →
  reachable tenantid textid patchid ops s'.
Proof.
  intros (now0 & heap0 & cache0 & es & Hrun) Hstep.
  exists now0, heap0, cache0, (es ++ [e]). by rewrite run_snoc, Hrun.
Qed.

Lemma replenish_monotone todo : ∀ s,
  Inv ops s → queue s = todo →
  (∀ op, op ∈ todo → raises tenantid textid op = false) →
  let s' := replenish tenantid textid patchid todo s in
  settled (results s) ≤ settled (results s') ∧ raised s' = raised s.
Proof.
  induction todo as [|patchoperation rest IH]; intros s HI Hq Hnr; simpl.
  - destruct (running _ =? 0)%nat; [| done].
    unfold handlePatchResponse. simpl. by destruct (finished s).
  - destruct (Nat.ltb_spec (running s) limit) as [Hlt | Hge]; [| done].
    destruct (Inv_head ops s _ _ HI Hq) as (_ & _ & _ & Hhole & _).
    assert (Hsome : applyPatch tenantid textid patchid (next s) patchoperation
                      (with_queue rest (S (next s)) s) ≠ None).
    { intros H%applyPatch_None. rewrite Hnr in H; [done | by left]. }
    destruct (applyPatch_cases tenantid textid patchid (next s) patchoperation
                (with_queue rest (S (next s)) s))
      as [H | [(put & e & H) | (call & H)]]; [done | |]; rewrite H.
    + pose proof (Inv_failed patchid ops s put _ _ e HI Hq) as HI'.
      rewrite (inv_errored _ _ HI').
      destruct (IH _ HI') as [Hle Hr].
      { by destruct put. }
      { intros op Hop. apply Hnr. by right. }
      split; [| by destruct put].
      etransitivity; [| exact Hle].
      destruct put; simpl; rewrite settled_insert by done; lia.
    + pose proof (Inv_launched ops s _ _ call HI Hq Hlt) as HI'.
      rewrite (inv_errored _ _ HI').
      destruct (IH _ HI') as [Hle Hr]; [done | | done].
      intros op Hop. apply Hnr. by right.
Qed.

Hypothesis never_raises : ∀ op, op ∈ ops → raises tenantid textid op = false.

Lemma queue_never_raises s op :
  Inv ops s → op ∈ queue s → raises tenantid textid op = false.
Proof.
  intros HI Hin. apply never_raises. rewrite (inv_queue ops s HI) in Hin.
  apply list_elem_of_lookup in Hin as [j Hj]. rewrite lookup_drop in Hj.
  apply list_elem_of_lookup. eauto.
Qed.

Lemma reachable_raised s :
  reachable tenantid textid patchid ops s → raised s = 0.
Proof.
  intros (now0 & heap0 & cache0 & es & Hrun).
  pose proof (editText_Inv tenantid textid patchid ops now0 heap0 cache0) as [HI _].
  assert (H0 : raised (editText tenantid textid patchid now0 heap0 cache0 ops) = 0).
  { unfold editText.
    destruct (replenish_monotone ops (created patchid now0 heap0 cache0 ops))
      as [_ ->]; [apply Inv_created | done | done | done]. }
  revert HI H0 Hrun.
  generalize (editText tenantid textid patchid now0 heap0 cache0 ops).
  induction es as [|e es IH]; intros s0 HI H0; simpl.
  - by intros [= <-].
  - destruct (step tenantid textid patchid e s0) as [s1|] eqn:Hstep; simpl; [| done].
    destruct (step_Inv tenantid textid patchid ops e s0 s1 Hstep HI) as [HI1 _].
    apply IH; [done |]. clear IH.
    destruct e as [i err result | dt]; simpl in Hstep; [| by injection Hstep as <-].
    destruct (inflight s0 !! i) as [patchoperation|] eqn:Hi; simpl in Hstep; [| done].
    pose proof (Inv_answered textid patchid ops s0 i patchoperation err result HI Hi)
      as HI'.
    unfold answered in HI'.
    destruct err as [e|]; simpl in *; rewrite (inv_errored _ _ HI) in Hstep;
      injection Hstep as <-;
      match goal with |- raised (replenish _ _ _ _ ?s0') = 0 =>
        destruct (replenish_monotone (queue s0) s0') as [_ ->];
          [done | done | intros op Hop; by apply (queue_never_raises s0) | done]
      end.
Qed.

(** One reply settles at least one more operation. *)
Lemma step_Reply_settles i err result s s' :
  Inv ops s →
  step tenantid textid patchid (Reply i err result) s = Some s' →
  settled (results s) < settled (results s').
Proof.
  intros HI. simpl.
  destruct (inflight s !! i) as [patchoperation|] eqn:Hi; simpl; [| done].
  destruct (inv_inflight ops s HI _ _ Hi) as (_ & Hhole & _).
  pose proof (Inv_answered textid patchid ops s i patchoperation err result HI Hi)
    as HI'.
  unfold answered in HI'.
  destruct err as [e|]; simpl in *; rewrite (inv_errored _ _ HI);
    intros [= <-];
    match goal with |- _ < settled (results (replenish _ _ _ _ ?s0')) =>
      destruct (replenish_monotone (queue s) s0') as [Hle _];
        [done | done | intros op Hop; by apply (queue_never_raises s) |];
      simpl in Hle; rewrite settled_insert in Hle by done; lia
    end.
Qed.

Lemma step_Reply_defined i err result s patchoperation :
  inflight s !! i = Some patchoperation →
  is_Some (step tenantid textid patchid (Reply i err result) s).
Proof.
  intros Hi. simpl. rewrite Hi. simpl.
  destruct (operationHandler _ _ _ _ _). eauto.
Qed.

(** Whatever the store answers, answering the operations that wait for
    it brings the batch to its final callback. *)
Lemma batch_completes (answer : nat → option DatabaseError * JSValue) s :
  reachable tenantid textid patchid ops s →
  ∃ es s',
    run tenantid textid patchid es s = Some s'
    ∧ finished s' = true
    ∧ ∀ e, e ∈ es → ∃ i, e = Reply i (answer i).1 (answer i).2.
Proof.
  remember (length ops - settled (results s)) as m eqn:Hm.
  revert s Hm. induction m as [m IH] using lt_wf_ind. intros s Hm Hr.
  destruct (reachable_Inv _ _ _ _ _ Hr) as [HI HB].
  destruct (finished s) eqn:Hf.
  { exists [], s. repeat split; [done |]. intros e He. by apply elem_of_nil in He. }
  destruct HB as [? | Hbusy]; [congruence |].
  unfold running in Hbusy. rewrite (reachable_raised s Hr) in Hbusy.
  assert (size (inflight s) ≠ 0) as [i [op Hi]]%map_size_ne_0_lookup by lia.
  destruct (step_Reply_defined i (answer i).1 (answer i).2 s op Hi) as [s1 Hstep].
  pose proof (step_Reply_settles _ _ _ _ _ HI Hstep) as Hlt.
  pose proof (reachable_step _ _ _ Hr Hstep) as Hr1.
  destruct (reachable_Inv _ _ _ _ _ Hr1) as [HI1 _].
  pose proof (settled_le (results s1)) as Hle.
  rewrite (inv_length ops s1 HI1) in Hle.
  destruct (IH (length ops - settled (results s1)) ltac:(lia) s1 eq_refl Hr1)
    as (es & s' & Hrun & Hfin & Hes).
  exists (Reply i (answer i).1 (answer i).2 :: es), s'.
  repeat split; [by cbn [run]; rewrite Hstep | done |].
  intros e [-> | He]%elem_of_cons; [by exists i | by apply Hes].
Qed.

End Completion.

(** * Further properties of the handlers *)

(** X1: [sanitizeMetadata] returns [null] or an object made of the [value]
    and [metadata] of its argument and of nothing else, one of the two
    being truthy; sanitizing what it returned changes nothing. *)
Theorem X1_sanitizeMetadata_idempotent value :
  (sanitizeMetadata value = JNull
   ∨ ∃ v m, sanitizeMetadata value = JObj [("value", v); ("metadata", m)]
          ∧ get value "value" = Some v ∧ get value "metadata" = Some m
          ∧ truthy v || truthy m = true)
  ∧ sanitizeMetadata (sanitizeMetadata value) = sanitizeMetadata value.
Proof.
  unfold sanitizeMetadata at 1 2 4 5.
  destruct (truthy value); [| split; [left |]; reflexivity].
  destruct (get value "value") as [v|]; [| split; [left |]; reflexivity].
  destruct (get value "metadata") as [m|]; [| split; [left |]; reflexivity].
  destruct (truthy v || truthy m) eqn:Hvm; [| split; [left |]; reflexivity].
  split; [right; by exists v, m |].
  unfold sanitizeMetadata. simpl. by rewrite Hvm.
Qed.

(** A class the handlers accept: it has an [id] that is a non-empty
    string. *)
Definition validClass (cls : JSValue) : Prop :=
  ∃ s, get cls "id" = Some (JStr s) ∧ s ≠ "".

Lemma getIds_valid cls : truthy (getIds cls) = true ↔ validClass cls.
Proof.
  rewrite getIds_truthy. split.
  - intros (s & ? & ? & _). by exists s.
  - intros (s & Hs & Hne). exists s. repeat split; [done.. |].
    destruct cls as [| | | | | |fields]; simpl in Hs; try discriminate; done.
Qed.

Lemma getIds_of_valid cls : validClass cls → Some (getIds cls) = get cls "id".
Proof.
  intros Hv. pose proof Hv as Ht%getIds_valid.
  destruct Hv as (s & Hs & _). unfold getIds in *.
  destruct (truthy cls); [| done]. by rewrite Hs.
Qed.

Lemma filter_all {A} (f : A → bool) (l : list A) :
  length (List.filter f l) = length l ↔ Forall (λ x, f x = true) l.
Proof.
  induction l as [|x l IH]; simpl.
  - split; [by constructor | done].
  - destruct (f x) eqn:Hx; simpl.
    + split.
      * intros [= H]. constructor; [done | by apply IH].
      * intros [_ H]%Forall_cons. f_equal. by apply IH.
    + split.
      * intros H. pose proof (filter_length_le f l). lia.
      * intros [H _]%Forall_cons. congruence.
Qed.

Lemma filter_id {A} (f : A → bool) (l : list A) :
  Forall (λ x, f x = true) l → List.filter f l = l.
Proof.
  induction 1 as [|x l Hx _ IH]; simpl; [done |]. by rewrite Hx, IH.
Qed.

(** X2: on an array, [getClassesToPatch] returns non-empty strings only
    and never more of them than the array has elements; it returns as many
    exactly when every element is a valid class, and then what it returns
    is the [id] of each element, in the order of the array. *)
Theorem X2_getClassesToPatch_ids elems :
  ∃ ids, getClassesToPatch (JArr elems) = Some ids
       ∧ Forall (λ x, ∃ s, x = JStr s ∧ s ≠ "") ids
       ∧ length ids ≤ length elems
       ∧ (length ids = length elems ↔ Forall validClass elems)
       ∧ (Forall validClass elems → Some <$> ids = (λ cls, get cls "id") <$> elems).
Proof.
  assert (Hall : Forall validClass elems
                 ↔ Forall (λ x, truthy x = true) (List.map getIds elems)).
  { rewrite !Forall_forall. split.
    - intros H x (cls & <- & Hin)%list_elem_of_In%in_map_iff.
      by apply getIds_valid, H, list_elem_of_In.
    - intros H cls Hin. apply getIds_valid, H.
      apply list_elem_of_In, in_map, list_elem_of_In, Hin. }
  eexists. split; [reflexivity |].
  split; [| split; [| split]].
  - apply Forall_forall. intros x [Hin Ht]%list_elem_of_In%filter_In.
    apply in_map_iff in Hin as (cls & <- & _).
    apply getIds_truthy in Ht as (s & Hs & Hne & Hc).
    exists s. split; [| done]. unfold getIds. by rewrite Hc, Hs.
  - rewrite <- (List.length_map getIds elems). apply filter_length_le.
  - rewrite Hall, <- filter_all. by rewrite List.length_map.
  - intros H. rewrite filter_id by (by apply Hall). clear Hall.
    induction H as [|cls l Hc _ IH]; simpl; [done |].
    f_equal; [by apply getIds_of_valid | exact IH].
Qed.

Lemma validClass_getIds elems :
  Forall validClass elems
  ↔ Forall (λ x, truthy x = true) (List.map getIds elems).
Proof.
  rewrite !Forall_forall. split.
  - intros H x (cls & <- & Hin)%list_elem_of_In%in_map_iff.
    by apply getIds_valid, H, list_elem_of_In.
  - intros H cls Hin. apply getIds_valid, H.
    apply list_elem_of_In, in_map, list_elem_of_In, Hin.
Qed.

Lemma getIds_all_valid elems :
  Forall validClass elems →
  Some <$> List.map getIds elems = (λ cls, get cls "id") <$> elems.
Proof.
  induction 1 as [|cls l Hc _ IH]; simpl; [done |].
  f_equal; [by apply getIds_of_valid | exact IH].
Qed.

(** The call the class handler makes for a verb it accepts. *)
Definition classesCall (op : JSValue) : string → string → list JSValue → StoreCall :=
  if is_string op "add" then addClassesToText else removeClassesFromText.

(** X3: for "add" and "remove" on an array, the class handler calls the
    store exactly when every element is a valid class, and then with the
    [id] of each element in the order of the array (with no id at all for
    the empty array); in every other case, an element with an empty [id]
    included, it answers "Invalid value array". *)
Theorem X3_classes_all_or_nothing tenantid textid patchoperation op elems :
  get patchoperation "op" = Some op →
  is_string op "add" = true ∨ is_string op "remove" = true →
  get patchoperation "value" = Some (JArr elems) →
  (Forall validClass elems →
     ∃ ids, Some <$> ids = (λ cls, get cls "id") <$> elems
          ∧ patchTextClasses tenantid textid patchoperation
            = Store (classesCall op tenantid textid ids))
  ∧ (¬ Forall validClass elems →
     patchTextClasses tenantid textid patchoperation
     = Callback (invalid "Invalid value array")).
Proof.
  intros Hop Hverb Hvalue.
  assert (Hshape : patchTextClasses tenantid textid patchoperation
            = if negb (length (List.filter truthy (List.map getIds elems))
                       =? length elems)%nat
              then Callback (invalid "Invalid value array")
              else Store (classesCall op tenantid textid
                            (List.filter truthy (List.map getIds elems)))).
  { unfold patchTextClasses, classesCall. rewrite Hop, Hvalue. simpl.
    destruct (is_string op "add"); [done |].
    destruct Hverb as [? | ->]; done. }
  rewrite Hshape. split.
  - intros Hall. exists (List.map getIds elems).
    split; [by apply getIds_all_valid |].
    rewrite filter_id by (by apply validClass_getIds).
    by rewrite List.length_map, Nat.eqb_refl.
  - intros Hnot.
    destruct (Nat.eqb_spec (length (List.filter truthy (List.map getIds elems)))
                (length elems)) as [Heq | _]; [| done].
    destruct Hnot. apply validClass_getIds, filter_all.
    by rewrite List.length_map.
Qed.

Lemma X3_classes_all_or_nothing_witness :
  (Forall validClass [JObj [("id", JStr "c1")]; JObj [("id", JStr "c2")]] →
     ∃ ids, Some <$> ids
            = (λ cls, get cls "id") <$> [JObj [("id", JStr "c1")]; JObj [("id", JStr "c2")]]
          ∧ patchTextClasses "tenant" "text" op_add
            = Store (classesCall (JStr "add") "tenant" "text" ids))
  ∧ (¬ Forall validClass [JObj [("id", JStr "c1")]; JObj [("id", JStr "c2")]] →
     patchTextClasses "tenant" "text" op_add
     = Callback (invalid "Invalid value array")).
Proof.
  apply (X3_classes_all_or_nothing "tenant" "text" op_add (JStr "add")
           [JObj [("id", JStr "c1")]; JObj [("id", JStr "c2")]]).
  - reflexivity.
  - left. reflexivity.
  - reflexivity.
Defined.

(** The empty array and an empty [id]: the first goes to the store with
    nothing to add, the second is refused. *)
Example classes_edge_cases :
  patchTextClasses "tenant" "text"
    (JObj [("op", JStr "add"); ("path", JStr "/classes"); ("value", JArr [])])
  = Store (addClassesToText "tenant" "text" [])
  ∧ patchTextClasses "tenant" "text"
      (JObj [("op", JStr "remove"); ("path", JStr "/classes");
             ("value", JArr [JObj [("id", JStr "")]])])
    = Callback (invalid "Invalid value array").
Proof. by vm_compute. Qed.

Lemma sanitizeMetadata_cases value :
  sanitizeMetadata value = JNull
  ∨ ∃ v m, sanitizeMetadata value = JObj [("value", v); ("metadata", m)]
         ∧ get value "value" = Some v ∧ get value "metadata" = Some m
         ∧ truthy v || truthy m = true.
Proof.
  unfold sanitizeMetadata.
  destruct (truthy value); [| by left].
  destruct (get value "value") as [v|]; [| by left].
  destruct (get value "metadata") as [m|]; [| by left].
  destruct (truthy v || truthy m) eqn:Hvm; [| by left].
  right. by exists v, m.
Qed.

(** X4: on an operation that is an object, the metadata handler never
    raises.  It calls the store only for "replace", and then with an object
    made of the [value] and [metadata] of the request value and of nothing
    else, one of the two being truthy; a "replace" whose value has neither
    is answered "Invalid value", any other verb "Unsupported operation". *)
Theorem X4_metadata_sanitized tenantid textid patchoperation op value :
  get patchoperation "op" = Some op →
  get patchoperation "value" = Some value →
  patchTextMetadata tenantid textid patchoperation ≠ Raise
  ∧ (∀ call, patchTextMetadata tenantid textid patchoperation = Store call →
       is_string op "replace" = true
       ∧ ∃ v m, call = updateTextMetadata tenantid textid
                         (JObj [("value", v); ("metadata", m)])
              ∧ get value "value" = Some v ∧ get value "metadata" = Some m
              ∧ truthy v || truthy m = true)
  ∧ (is_string op "replace" = true → sanitizeMetadata value = JNull →
     patchTextMetadata tenantid textid patchoperation
     = Callback (invalid "Invalid value"))
  ∧ (is_string op "replace" = false →
     patchTextMetadata tenantid textid patchoperation
     = Callback (invalid "Unsupported operation")).
Proof.
  intros Hop Hvalue. unfold patchTextMetadata. rewrite Hop, Hvalue.
  destruct (is_string op "replace").
  - destruct (sanitizeMetadata_cases value) as [-> | (v & m & -> & Hv & Hm & Hvm)]; simpl.
    + split; [done |]. split; [done |]. by split.
    + split; [done |]. split; [| by split].
      intros call [= <-]. split; [done |]. by exists v, m.
  - split; [done |]. split; [done |]. by split.
Qed.

Lemma X4_metadata_sanitized_witness :
  patchTextMetadata "tenant" "text" op_replace ≠ Raise
  ∧ (∀ call, patchTextMetadata "tenant" "text" op_replace = Store call →
       is_string (JStr "replace") "replace" = true
       ∧ ∃ v m, call = updateTextMetadata "tenant" "text"
                         (JObj [("value", v); ("metadata", m)])
              ∧ get (JObj [("value", JStr "x"); ("metadata", JObj [])]) "value" = Some v
              ∧ get (JObj [("value", JStr "x"); ("metadata", JObj [])]) "metadata" = Some m
              ∧ truthy v || truthy m = true)
  ∧ (is_string (JStr "replace") "replace" = true →
     sanitizeMetadata (JObj [("value", JStr "x"); ("metadata", JObj [])]) = JNull →
     patchTextMetadata "tenant" "text" op_replace
     = Callback (invalid "Invalid value"))
  ∧ (is_string (JStr "replace") "replace" = false →
     patchTextMetadata "tenant" "text" op_replace
     = Callback (invalid "Unsupported operation")).
Proof.
  apply (X4_metadata_sanitized "tenant" "text" op_replace (JStr "replace")
           (JObj [("value", JStr "x"); ("metadata", JObj [])])).
  - reflexivity.
  - reflexivity.
Defined.

Lemma get_None v k : get v k = None → v = JUndefined ∨ v = JNull.
Proof. destruct v; simpl; try discriminate; auto. Qed.

Lemma patchTextMetadata_no_raise tenantid textid patchoperation path :
  get patchoperation "path" = Some path →
  patchTextMetadata tenantid textid patchoperation ≠ Raise.
Proof.
  intros Hpath.
  destruct (get_total _ _ _ "op" Hpath) as [op Hop].
  destruct (get_total _ _ _ "value" Hpath) as [value Hvalue].
  unfold patchTextMetadata. rewrite Hop, Hvalue.
  destruct (is_string op "replace"); [| done].
  by destruct (negb _).
Qed.

(** X5: the iterator raises on an operation exactly when the operation is
    [undefined] or [null], or its path is "/classes", its verb "add" or
    "remove" and its value not an array.  On every other operation it
    settles the operation or passes it to the store. *)
Theorem X5_raises_exactly tenantid textid patchid i patchoperation s :
  applyPatch tenantid textid patchid i patchoperation s = None
  ↔ patchoperation = JUndefined ∨ patchoperation = JNull
    ∨ ∃ path op value,
        get patchoperation "path" = Some path
        ∧ is_string path "/classes" = true
        ∧ get patchoperation "op" = Some op
        ∧ (is_string op "add" = true ∨ is_string op "remove" = true)
        ∧ get patchoperation "value" = Some value
        ∧ ∀ elems, value ≠ JArr elems.
Proof.
  rewrite applyPatch_None. unfold raises. split.
  - destruct (get patchoperation "path") as [path|] eqn:Hpath.
    + intros Hr. right; right.
      destruct (get_total _ _ _ "op" Hpath) as [op Hop].
      destruct (get_total _ _ _ "value" Hpath) as [value Hvalue].
      destruct (is_string path "/classes") eqn:Hc.
      * exists path, op, value. repeat split; try done.
        -- unfold patchTextClasses in Hr. rewrite Hop, Hvalue in Hr.
           destruct (is_string op "add"); [by left |].
           destruct (is_string op "remove"); [by right | done].
        -- intros elems ->. unfold patchTextClasses in Hr.
           rewrite Hop, Hvalue in Hr. simpl in Hr.
           destruct (is_string op "add");
             [by destruct (negb _) |].
           destruct (is_string op "remove"); [by destruct (negb _) | done].
      * destruct (is_string path "/metadata"); [| done].
        pose proof (patchTextMetadata_no_raise tenantid textid _ _ Hpath).
        by destruct (patchTextMetadata tenantid textid patchoperation).
    + intros _. destruct (get_None _ _ Hpath); auto.
  - intros [-> | [-> | (path & op & value & Hpath & Hc & Hop & Hverb & Hvalue & Hv)]];
      [done | done |].
    rewrite Hpath, Hc.
    by rewrite (patchTextClasses_raises tenantid textid _ _ _ Hop Hverb Hvalue Hv).
Qed.

(** * Further properties of a batch *)

Lemma with_queue_id s : with_queue (queue s) (next s) s = s.
Proof. by destruct s. Qed.

(** ** A principle for the states a batch can reach

    A property holds in every reachable state as soon as it holds when
    [mapLimit] is called and is kept by each thing that can happen to a
    batch: an operation is started and fails at once, is passed to the
    store, or makes the iterator raise; the store answers; the final
    callback runs; time passes. *)

Section Reachable.

Variables tenantid textid patchid : string.
Variable ops : list JSValue.

(** The call the iterator makes on the store for an operation, if any. *)
Definition storeCallOf (patchoperation : JSValue) : option StoreCall :=
  match get patchoperation "path" with
  | Some path =>
      if is_string path "/classes" then
        match patchTextClasses tenantid textid patchoperation with
        | Store call => Some call
        | _ => None
        end
      else if is_string path "/metadata" then
        match patchTextMetadata tenantid textid patchoperation with
        | Store call => Some call
        | _ => None
        end
      else None
  | None => None
  end.

Lemma applyPatch_dispositions i patchoperation s :
  (applyPatch tenantid textid patchid i patchoperation s = None
   ∧ raises tenantid textid patchoperation = true
   ∧ storeCallOf patchoperation = None)
  ∨ (∃ put e,
       applyPatch tenantid textid patchid i patchoperation s
       = Some (failed patchid put i patchoperation e s)
       ∧ raises tenantid textid patchoperation = false
       ∧ storeCallOf patchoperation = None)
  ∨ (∃ call,
       applyPatch tenantid textid patchid i patchoperation s
       = Some (launched i patchoperation call s)
       ∧ raises tenantid textid patchoperation = false
       ∧ storeCallOf patchoperation = Some call).
Proof.
  unfold applyPatch, raises, storeCallOf.
  destruct (get patchoperation "path") as [path|]; simpl; [| by left].
  destruct (is_string path "/classes").
  { destruct (patchTextClasses _ _ _) as [|e|call]; simpl.
    - by left.
    - right; left. by exists true, e.
    - right; right. by exists call. }
  destruct (is_string path "/metadata").
  { destruct (patchTextMetadata _ _ _) as [|e|call]; simpl.
    - by left.
    - right; left. by exists true, e.
    - right; right. by exists call. }
  right; left. by exists false, (invalid "Unsupported operation").
Qed.

Variable P : Exec → Prop.

Hypothesis P_created : ∀ now0 heap0 cache0,
  P (created patchid now0 heap0 cache0 ops).

Hypothesis P_failed : ∀ s patchoperation rest put e,
  Inv ops s → P s → queue s = patchoperation :: rest → running s < limit →
  storeCallOf patchoperation = None →
  P (failed patchid put (next s) patchoperation e (with_queue rest (S (next s)) s)).

Hypothesis P_launched : ∀ s patchoperation rest call,
  Inv ops s → P s → queue s = patchoperation :: rest → running s < limit →
  storeCallOf patchoperation = Some call →
  P (launched (next s) patchoperation call (with_queue rest (S (next s)) s)).

Hypothesis P_raised : ∀ s patchoperation rest,
  Inv ops s → P s → queue s = patchoperation :: rest → running s < limit →
  storeCallOf patchoperation = None →
  P (with_raised (S (raised s)) (with_queue rest (S (next s)) s)).

Hypothesis P_final : ∀ s,
  Inv ops s → P s → queue s = [] → running s = 0 →
  P (handlePatchResponse textid patchid None s).

Hypothesis P_answered : ∀ s i patchoperation err result,
  Inv ops s → P s → inflight s !! i = Some patchoperation →
  P (answered textid patchid i patchoperation err result s).

Hypothesis P_elapse : ∀ s dt, P s → P (with_now (now s + dt)%N s).

Lemma replenish_preserves todo : ∀ s,
  Inv ops s → P s → queue s = todo →
  P (replenish tenantid textid patchid todo s).
Proof.
  induction todo as [|patchoperation rest IH]; intros s HI HP Hq; simpl.
  - assert (Hs : with_queue [] (next s) s = s) by (rewrite <- Hq; apply with_queue_id).
    rewrite Hs. destruct (Nat.eqb_spec (running s) 0); [by apply P_final | done].
  - destruct (Nat.ltb_spec (running s) limit) as [Hlt | Hge].
    + destruct (applyPatch_dispositions (next s) patchoperation
                  (with_queue rest (S (next s)) s))
        as [(-> & _ & Hc) | [(put & e & -> & _ & Hc) | (call & -> & _ & Hc)]].
      * exact (P_raised s patchoperation rest HI HP Hq Hlt Hc).
      * pose proof (Inv_failed patchid ops s put _ _ e HI Hq) as HI'.
        rewrite (inv_errored _ _ HI').
        apply IH; [done | by apply P_failed | by destruct put].
      * pose proof (Inv_launched ops s _ _ call HI Hq Hlt) as HI'.
        rewrite (inv_errored _ _ HI').
        apply IH; [done | by apply P_launched | done].
    + rewrite <- Hq. by rewrite with_queue_id.
Qed.

Lemma step_preserves e s s' :
  step tenantid textid patchid e s = Some s' → Inv ops s → P s → P s'.
Proof.
  destruct e as [i err result | dt]; simpl.
  - destruct (inflight s !! i) as [patchoperation|] eqn:Hi; simpl; [| done].
    intros Hs HI HP.
    pose proof (Inv_answered textid patchid ops s i patchoperation err result HI Hi) as HI'.
    pose proof (P_answered s i patchoperation err result HI HP Hi) as HP'.
    unfold answered in HI', HP'.
    destruct (operationHandler _ _ _ _ _) as [s1 args].
    rewrite (inv_errored _ _ HI') in Hs. injection Hs as <-.
    by apply replenish_preserves.
  - intros [= <-] _ HP. by apply P_elapse.
Qed.

Lemma run_preserves es : ∀ s s',
  run tenantid textid patchid es s = Some s' → Inv ops s → P s → P s'.
Proof.
  induction es as [|e es IH]; intros s s'; simpl.
  - by intros [= <-].
  - destruct (step tenantid textid patchid e s) as [s1|] eqn:Hstep; simpl; [| done].
    intros Hrun HI HP.
    destruct (step_Inv tenantid textid patchid ops e s s1 Hstep HI) as [HI1 _].
    apply (IH s1 s' Hrun HI1). by eapply step_preserves.
Qed.

Lemma reachable_preserves s :
  reachable tenantid textid patchid ops s → P s.
Proof.
  intros (now0 & heap0 & cache0 & es & Hrun).
  eapply run_preserves; [exact Hrun | apply editText_Inv |].
  unfold editText. apply replenish_preserves; [apply Inv_created | apply P_created | done].
Qed.

End Reachable.

(** ** The order of the calls and the origin of the outcomes *)

Section Order.

Variables tenantid textid patchid : string.
Variable ops : list JSValue.

Lemma take_next s patchoperation rest :
  Inv ops s → queue s = patchoperation :: rest →
  take (S (next s)) ops = take (next s) ops ++ [patchoperation].
Proof.
  intros HI Hq. destruct (Inv_head ops s _ _ HI Hq) as (Hop & _).
  by apply take_S_r.
Qed.

(** The calls made on the store are those of the operations started so
    far, in the order of the batch. *)
Definition Calls (s : Exec) : Prop :=
  calls s = omap (storeCallOf tenantid textid) (take (next s) ops).

Lemma reachable_Calls s :
  reachable tenantid textid patchid ops s → Calls s.
Proof.
  apply (reachable_preserves tenantid textid patchid ops Calls); unfold Calls.
  - done.
  - intros s0 po rest put e HI HP Hq _ Hc.
    assert (Hcalls : calls (failed patchid put (next s0) po e
                              (with_queue rest (S (next s0)) s0)) = calls s0)
      by (by destruct put).
    assert (Hnext : next (failed patchid put (next s0) po e
                              (with_queue rest (S (next s0)) s0)) = S (next s0))
      by (by destruct put).
    rewrite Hcalls, Hnext, (take_next s0 po rest HI Hq), omap_app, <- HP.
    simpl. rewrite Hc. by rewrite app_nil_r.
  - intros s0 po rest call HI HP Hq _ Hc. simpl.
    rewrite (take_next s0 po rest HI Hq), omap_app, <- HP.
    simpl. by rewrite Hc.
  - intros s0 po rest HI HP Hq _ Hc. simpl.
    rewrite (take_next s0 po rest HI Hq), omap_app, <- HP.
    simpl. rewrite Hc. by rewrite app_nil_r.
  - intros s0 _ HP _ _. unfold handlePatchResponse. by destruct (finished s0).
  - intros s0 i po err result _ HP _. by destruct err.
  - done.
Qed.

(** A success in a slot, and an operation that waits for the store, belong
    to an operation the iterator passed to the store. *)
Definition Origin (s : Exec) : Prop :=
  (∀ j v, results s !! j = Some (Some (Result v)) →
     ∃ op, ops !! j = Some op ∧ is_Some (storeCallOf tenantid textid op))
  ∧ (∀ j op, inflight s !! j = Some op → is_Some (storeCallOf tenantid textid op)).

Lemma reachable_Origin s :
  reachable tenantid textid patchid ops s → Origin s.
Proof.
  apply (reachable_preserves tenantid textid patchid ops Origin); unfold Origin.
  - intros now0 heap0 cache0. split; simpl.
    + intros j v [? _]%lookup_replicate_1. done.
    + intros j op Hj. by rewrite lookup_empty in Hj.
  - intros s0 po rest put e HI [Hres Hfl] Hq _ Hc.
    assert (Hr : results (failed patchid put (next s0) po e
                            (with_queue rest (S (next s0)) s0))
                 = <[next s0 := Some (PatchError e po)]> (results s0))
      by (by destruct put).
    split; [rewrite Hr | by destruct put].
    intros j v [(_ & [=] & _) | [_ Hj]]%list_lookup_insert_Some. eauto.
  - intros s0 po rest call HI [Hres Hfl] Hq _ Hc. split; simpl; [done |].
    intros j op [[_ <-] | [_ Hj]]%lookup_insert_Some; [by rewrite Hc | eauto].
  - intros s0 po rest HI HP Hq _ Hc. done.
  - intros s0 _ HP _ _. unfold handlePatchResponse. by destruct (finished s0).
  - intros s0 i po err result HI [Hres Hfl] Hi.
    destruct (inv_inflight ops s0 HI _ _ Hi) as (_ & _ & Hop).
    split; destruct err as [e|]; simpl.
    + intros j v [(_ & [=] & _) | [_ Hj]]%list_lookup_insert_Some. eauto.
    + intros j v [(<- & _ & _) | [_ Hj]]%list_lookup_insert_Some; eauto.
    + intros j op [_ Hj]%lookup_delete_Some. eauto.
    + intros j op [_ Hj]%lookup_delete_Some. eauto.
  - done.
Qed.

End Order.

(** X7: the calls a batch has made on the store are the calls of the
    operations it has started, one for each operation that goes to the
    store, in the order in which the operations were submitted. *)
Theorem X7_calls_in_submission_order tenantid textid patchid ops s :
  reachable tenantid textid patchid ops s →
  next s ≤ length ops
  ∧ calls s = omap (storeCallOf tenantid textid) (take (next s) ops).
Proof.
  intros Hr. destruct (reachable_Inv _ _ _ _ _ Hr) as [HI _].
  split; [apply (inv_next ops s HI) |].
  by apply (reachable_Calls tenantid textid patchid ops).
Qed.

Lemma X7_calls_in_submission_order_witness :
  next scenario_end ≤ length scenario
  ∧ calls scenario_end
    = omap (storeCallOf "tenant" "text") (take (next scenario_end) scenario).
Proof.
  apply (X7_calls_in_submission_order "tenant" "text" "patch" scenario scenario_end).
  exists 0%N, ∅, ∅, scenario_replies. vm_compute. reflexivity.
Defined.

(** X12: in every state a batch can reach, the outcome in slot [j] belongs
    to the [j]-th submitted operation: an error wraps that very operation,
    and a success stands only where the iterator passed that operation to
    the store. *)
Theorem X12_slot_belongs_to_operation tenantid textid patchid ops s j o :
  reachable tenantid textid patchid ops s →
  results s !! j = Some (Some o) →
  ∃ op, ops !! j = Some op
      ∧ match o with
        | PatchError _ operation => operation = op
        | Result _ => is_Some (storeCallOf tenantid textid op)
        end.
Proof.
  intros Hr Hj.
  destruct (reachable_Prov _ _ _ _ _ Hr) as [HP _].
  destruct (reachable_Origin _ _ _ _ _ Hr) as [HO _].
  destruct (HP j o Hj) as (op & Hop & _ & Hwrap).
  exists op. split; [done |].
  destruct o as [v | e operation]; [| by apply (Hwrap e)].
  destruct (HO j v Hj) as (op' & Hop' & Hcall). congruence.
Qed.

Lemma X12_slot_belongs_to_operation_witness :
  ∃ op, scenario !! 2 = Some op
      ∧ match PatchError (invalid "Unsupported operation") op_bogus with
        | PatchError _ operation => operation = op
        | Result _ => is_Some (storeCallOf "tenant" "text" op)
        end.
Proof.
  apply (X12_slot_belongs_to_operation "tenant" "text" "patch" scenario scenario_end).
  - exists 0%N, ∅, ∅, scenario_replies. vm_compute. reflexivity.
  - vm_compute. reflexivity.
Defined.

Lemma omap_none {A B} (f : A → option B) (l : list A) :
  (∀ x, x ∈ l → f x = None) → omap f l = [].
Proof.
  induction l as [|x l IH]; intros H; simpl; [done |].
  rewrite (H x) by (by left). apply IH. intros y Hy. apply H. by right.
Qed.

Lemma successes_none rs :
  (∀ j v, rs !! j ≠ Some (Some (Result v))) → successes rs = 0.
Proof.
  induction rs as [|r rs IH]; intros H; simpl; [done |].
  assert (Hrs : successes rs = 0) by (apply IH; intros j v; apply (H (S j) v)).
  destruct r as [[v|]|]; try done. by destruct (H 0 v).
Qed.

(** X10: when no operation of a batch goes to the store and the iterator
    raises on none, the batch is over before [editText] returns: no call
    was made on the store, the final callback has run, and the status
    record, which [patchStatus] returns at that instant, is COMPLETE with
    every operation counted as an error.  The empty batch is the case of
    zero errors. *)
Theorem X10_batch_without_store_calls tenantid textid patchid now0 heap0 cache0 ops :
  (∀ op, op ∈ ops →
     raises tenantid textid op = false ∧ storeCallOf tenantid textid op = None) →
  let s := editText tenantid textid patchid now0 heap0 cache0 ops in
  finished s = true
  ∧ calls s = []
  ∧ inflight s = ∅
  ∧ patchStatus patchid s
    = Some {| status := COMPLETE; success := 0; error := length ops |}.
Proof.
  intros Hsync s.
  assert (Hr : reachable tenantid textid patchid ops s) by (by exists now0, heap0, cache0, []).
  destruct (reachable_Inv _ _ _ _ _ Hr) as [HI HB].
  destruct (reachable_Origin _ _ _ _ _ Hr) as [Hres Hfl].
  assert (Hraised : raised s = 0).
  { apply (reachable_raised tenantid textid patchid ops); [| done].
    intros op Hop. by apply Hsync. }
  assert (Hempty : inflight s = ∅).
  { apply map_empty. intros i. destruct (inflight s !! i) as [op|] eqn:Hi; [| done].
    destruct (inv_inflight ops s HI _ _ Hi) as (_ & _ & Hop).
    destruct (Hfl i op Hi) as [call Hcall].
    destruct (Hsync op) as [_ Hnone]; [by eapply list_elem_of_lookup_2 | congruence]. }
  assert (Hfin : finished s = true).
  { destruct HB as [? | Hbusy]; [done |].
    unfold running in Hbusy. rewrite Hempty, map_size_empty, Hraised in Hbusy. lia. }
  split; [done |]. split.
  { rewrite (reachable_Calls _ _ _ _ _ Hr). apply omap_none.
    intros op [i [Hi _]%lookup_take_Some]%list_elem_of_lookup.
    apply Hsync. by eapply list_elem_of_lookup_2. }
  split; [done |].
  destruct (inv_heap ops s HI) as (d & Hd & Hs & He & Hst).
  rewrite Hfin in Hst.
  pose proof (finished_all_settled ops s HI Hfin) as Hall.
  assert (Hzero : successes (results s) = 0).
  { apply successes_none. intros j v Hj.
    destruct (Hres j v Hj) as (op & Hop & [call Hcall]).
    destruct (Hsync op) as [_ Hnone]; [by eapply list_elem_of_lookup_2 | congruence]. }
  unfold settled in Hall. rewrite Hzero in Hall, Hs. simpl in Hall.
  assert (Hrec : d = {| status := COMPLETE; success := 0; error := length ops |}).
  { destruct d as [st su er]. simpl in *. congruence. }
  subst d.
  destruct (editText_wrote tenantid textid patchid now0 heap0 cache0 ops)
    as (Hn & Hdet & Hc).
  fold s in Hn, Hdet, Hc.
  unfold patchStatus, cache_get. rewrite Hc, Hn. unfold cache_put.
  rewrite lookup_insert_eq. simpl.
  assert (Hlt : (now0 <? now0 + 5 * MINUTE)%N = true)
    by (apply N.ltb_lt; change (5 * MINUTE)%N with 300000%N; lia).
  rewrite Hlt. simpl. by rewrite <- Hdet.
Qed.

Lemma X10_batch_without_store_calls_witness :
  let s := editText "tenant" "text" "patch" 0 ∅ ∅ [op_bogus; op_add_partial] in
  finished s = true
  ∧ calls s = []
  ∧ inflight s = ∅
  ∧ patchStatus "patch" s
    = Some {| status := COMPLETE; success := 0;
              error := length [op_bogus; op_add_partial] |}.
Proof.
  apply (X10_batch_without_store_calls "tenant" "text" "patch" 0 ∅ ∅
           [op_bogus; op_add_partial]).
  intros op Hop. apply list_elem_of_In in Hop. simpl in Hop.
  destruct Hop as [<- | [<- | []]]; split; reflexivity.
Defined.

(** The empty batch. *)
Example empty_batch :
  let s := editText "tenant" "text" "patch" 0 ∅ ∅ [] in
  finished s = true ∧ sent s = []
  ∧ patchStatus "patch" s = Some {| status := COMPLETE; success := 0; error := 0 |}.
Proof. by vm_compute. Qed.

(** ** The window of ten *)

Section Window.

Variables tenantid textid patchid : string.
Variable ops : list JSValue.

(** Where the loop of [mapLimit] stops: the queue is empty, every slot is
    taken, or the iterator has raised. *)
Definition Full (s : Exec) : Prop :=
  queue s = [] ∨ running s = limit ∨ 0 < raised s.

Lemma replenish_Full todo : ∀ s,
  Inv ops s → queue s = todo →
  Full (replenish tenantid textid patchid todo s).
Proof.
  induction todo as [|patchoperation rest IH]; intros s HI Hq; simpl.
  - left. destruct (running _ =? 0)%nat; [| done].
    unfold handlePatchResponse. simpl. by destruct (finished s).
  - destruct (Nat.ltb_spec (running s) limit) as [Hlt | Hge].
    + destruct (applyPatch_cases tenantid textid patchid (next s) patchoperation
                  (with_queue rest (S (next s)) s))
        as [-> | [(put & e & ->) | (call & ->)]].
      * right; right. simpl. lia.
      * pose proof (Inv_failed patchid ops s put _ _ e HI Hq) as HI'.
        rewrite (inv_errored _ _ HI'). apply IH; [done | by destruct put].
      * pose proof (Inv_launched ops s _ _ call HI Hq Hlt) as HI'.
        rewrite (inv_errored _ _ HI'). by apply IH.
    + right; left. pose proof (inv_limit ops s HI). unfold running in *. simpl. lia.
Qed.

Lemma reachable_Full s :
  reachable tenantid textid patchid ops s → Full s.
Proof.
  intros (now0 & heap0 & cache0 & es & Hrun).
  pose proof (editText_Inv tenantid textid patchid ops now0 heap0 cache0) as [HI _].
  assert (HF : Full (editText tenantid textid patchid now0 heap0 cache0 ops)).
  { unfold editText. apply replenish_Full; [apply Inv_created | done]. }
  revert HI HF Hrun.
  generalize (editText tenantid textid patchid now0 heap0 cache0 ops).
  induction es as [|e es IH]; intros s0 HI HF; simpl.
  - by intros [= <-].
  - destruct (step tenantid textid patchid e s0) as [s1|] eqn:Hstep; simpl; [| done].
    destruct (step_Inv tenantid textid patchid ops e s0 s1 Hstep HI) as [HI1 _].
    apply IH; [done |]. clear IH.
    destruct e as [i err result | dt]; simpl in Hstep; [| by injection Hstep as <-].
    destruct (inflight s0 !! i) as [patchoperation|] eqn:Hi; simpl in Hstep; [| done].
    pose proof (Inv_answered textid patchid ops s0 i patchoperation err result HI Hi)
      as HI'.
    unfold answered in HI'.
    destruct err as [e|]; simpl in *; rewrite (inv_errored _ _ HI) in Hstep;
      injection Hstep as <-; by apply replenish_Full.
Qed.

End Window.

(** X19: the window is kept full.  In every state a batch can reach in
    which the iterator has not raised, either no operation is left in the
    queue or exactly ten operations are waiting for the store: a queued
    operation never waits while a slot is free. *)
Theorem X19_window_kept_full tenantid textid patchid ops s :
  reachable tenantid textid patchid ops s →
  raised s = 0 →
  queue s ≠ [] →
  size (inflight s) = 10.
Proof.
  intros Hr Hraised Hq.
  destruct (reachable_Full _ _ _ _ _ Hr) as [? | [Hfull | ?]]; [done | | lia].
  unfold running, limit in Hfull. lia.
Qed.

Lemma X19_window_kept_full_witness :
  size (inflight (editText "tenant" "text" "patch" 0 ∅ ∅ twelve_adds)) = 10.
Proof.
  apply (X19_window_kept_full "tenant" "text" "patch" twelve_adds).
  - exists 0%N, ∅, ∅, []. reflexivity.
  - vm_compute. reflexivity.
  - vm_compute. discriminate.
Defined.

(** X20: the final callback runs exactly when the last operation settles:
    in every state a batch can reach, it has run if and only if every slot
    of the result array is filled. *)
Theorem X20_finished_iff_all_settled tenantid textid patchid ops s :
  reachable tenantid textid patchid ops s →
  finished s = true ↔ settled (results s) = length ops.
Proof.
  intros Hr. destruct (reachable_Inv _ _ _ _ _ Hr) as [HI HB]. split.
  - by apply finished_all_settled.
  - intros Hall. destruct HB as [? | Hbusy]; [done |].
    pose proof (inv_account ops s HI). pose proof (inv_next ops s HI).
    unfold running in Hbusy. lia.
Qed.

Lemma X20_finished_iff_all_settled_witness :
  finished scenario_end = true ↔ settled (results scenario_end) = length scenario.
Proof.
  apply (X20_finished_iff_all_settled "tenant" "text" "patch" scenario scenario_end).
  exists 0%N, ∅, ∅, scenario_replies. vm_compute. reflexivity.
Defined.

(** ** After the final callback *)

Lemma finished_no_reply tenantid textid patchid ops s i err result :
  Inv ops s → finished s = true →
  step tenantid textid patchid (Reply i err result) s = None.
Proof.
  intros HI Hf. destruct (inv_finished ops s HI Hf) as [_ Hrun].
  unfold running in Hrun.
  assert (size (inflight s) = 0) as H0%map_size_empty_inv by lia.
  simpl. by rewrite H0, lookup_empty.
Qed.

(** X11: once the final callback has run nothing happens to the batch any
    more.  No reply of the store is pending, so only time can pass; the
    status record, the result array, the messages sent and the entry of
    the cache stay as the final callback left them: the status never goes
    back, and no message is sent twice. *)
Theorem X11_nothing_after_the_end tenantid textid patchid ops s es s' :
  reachable tenantid textid patchid ops s →
  finished s = true →
  run tenantid textid patchid es s = Some s' →
  (∀ e, e ∈ es → ∃ dt, e = Elapse dt)
  ∧ finished s' = true
  ∧ heap s' = heap s ∧ results s' = results s ∧ sent s' = sent s
  ∧ cache s' = cache s ∧ calls s' = calls s.
Proof.
  intros Hr. destruct (reachable_Inv _ _ _ _ _ Hr) as [HI _]. clear Hr.
  revert s HI. induction es as [|e es IH]; intros s HI Hf; simpl.
  - intros [= <-]. split; [| done]. intros e He. by apply elem_of_nil in He.
  - destruct e as [i err result | dt].
    + by rewrite (finished_no_reply tenantid textid patchid ops s i err result HI Hf).
    + simpl. intros Hrun.
      destruct (IH (with_now (now s + dt)%N s)) as (Hes & ? & ? & ? & ? & ? & ?);
        [by eapply Inv_ext | done | done |].
      split; [| done].
      intros e [-> | He]%elem_of_cons; [by exists dt | by apply Hes].
Qed.

Lemma X11_nothing_after_the_end_witness :
  (∀ e, e ∈ [Elapse 5; Elapse 7] → ∃ dt, e = Elapse dt)
  ∧ finished (with_now 2012 scenario_end) = true
  ∧ heap (with_now 2012 scenario_end) = heap scenario_end
  ∧ results (with_now 2012 scenario_end) = results scenario_end
  ∧ sent (with_now 2012 scenario_end) = sent scenario_end
  ∧ cache (with_now 2012 scenario_end) = cache scenario_end
  ∧ calls (with_now 2012 scenario_end) = calls scenario_end.
Proof.
  apply (X11_nothing_after_the_end "tenant" "text" "patch" scenario scenario_end
           [Elapse 5; Elapse 7]).
  - exists 0%N, ∅, ∅, scenario_replies. vm_compute. reflexivity.
  - vm_compute. reflexivity.
  - vm_compute. reflexivity.
Defined.

(** ** What the counters count *)

(** The replies of the store that carry no error. *)
Fixpoint okReplies (es : list Input) : nat :=
  match es with
  | [] => 0
  | Reply _ None _ :: rest => S (okReplies rest)
  | _ :: rest => okReplies rest
  end.

Section Successes.

Variables tenantid textid patchid : string.
Variable ops : list JSValue.

Lemma replenish_successes todo : ∀ s,
  Inv ops s → queue s = todo →
  successes (results (replenish tenantid textid patchid todo s))
  = successes (results s).
Proof.
  induction todo as [|patchoperation rest IH]; intros s HI Hq; simpl.
  - destruct (running _ =? 0)%nat; [| done].
    unfold handlePatchResponse. simpl. by destruct (finished s).
  - destruct (Nat.ltb_spec (running s) limit) as [Hlt | Hge]; [| done].
    destruct (Inv_head ops s _ _ HI Hq) as (_ & _ & _ & Hhole & _).
    destruct (applyPatch_cases tenantid textid patchid (next s) patchoperation
                (with_queue rest (S (next s)) s))
      as [-> | [(put & e & ->) | (call & ->)]]; [done | |].
    + pose proof (Inv_failed patchid ops s put _ _ e HI Hq) as HI'.
      rewrite (inv_errored _ _ HI'). rewrite IH; [| done | by destruct put].
      destruct put; simpl; by rewrite successes_insert.
    + pose proof (Inv_launched ops s _ _ call HI Hq Hlt) as HI'.
      rewrite (inv_errored _ _ HI'). by rewrite IH.
Qed.

Lemma run_successes es : ∀ s s',
  Inv ops s →
  run tenantid textid patchid es s = Some s' →
  successes (results s') = okReplies es + successes (results s).
Proof.
  induction es as [|e es IH]; intros s s' HI; simpl.
  - by intros [= <-].
  - destruct (step tenantid textid patchid e s) as [s1|] eqn:Hstep; simpl; [| done].
    destruct (step_Inv tenantid textid patchid ops e s s1 Hstep HI) as [HI1 _].
    intros Hrun. rewrite (IH s1 s' HI1 Hrun). clear IH Hrun.
    destruct e as [i err result | dt]; simpl in Hstep;
      [| by injection Hstep as <-].
    destruct (inflight s !! i) as [patchoperation|] eqn:Hi; simpl in Hstep; [| done].
    destruct (inv_inflight ops s HI _ _ Hi) as (_ & Hhole & _).
    pose proof (Inv_answered textid patchid ops s i patchoperation err result HI Hi)
      as HI'.
    unfold answered in HI'.
    destruct err as [e|]; simpl in *; rewrite (inv_errored _ _ HI) in Hstep;
      injection Hstep as <-; rewrite replenish_successes by done; simpl;
      rewrite successes_insert by done; simpl; lia.
Qed.

End Successes.

(** X8: the controller never makes up a success.  After any run of a
    batch, the [success] counter of the status record is the number of
    replies in which the store reported no error; everything else that has
    settled is counted in [error]. *)
Theorem X8_success_counts_store_replies tenantid textid patchid ops now0 heap0 cache0 es s :
  run tenantid textid patchid es
    (editText tenantid textid patchid now0 heap0 cache0 ops) = Some s →
  ∃ d, heap s !! details s = Some d
     ∧ success d = okReplies es
     ∧ error d = settled (results s) - okReplies es.
Proof.
  intros Hrun.
  assert (Hr : reachable tenantid textid patchid ops s)
    by (by exists now0, heap0, cache0, es).
  destruct (reachable_Inv _ _ _ _ _ Hr) as [HI _].
  destruct (editText_Inv tenantid textid patchid ops now0 heap0 cache0) as [HI0 _].
  pose proof (run_successes tenantid textid patchid ops es _ s HI0 Hrun) as Hs.
  unfold editText in Hs.
  rewrite (replenish_successes tenantid textid patchid ops) in Hs;
    [| apply Inv_created | done].
  simpl in Hs. rewrite successes_replicate in Hs.
  destruct (inv_heap ops s HI) as (d & Hd & Hsucc & Herr & _).
  exists d. split; [done |]. unfold settled. lia.
Qed.

Lemma X8_success_counts_store_replies_witness :
  ∃ d, heap scenario_end !! details scenario_end = Some d
     ∧ success d = okReplies scenario_replies
     ∧ error d = settled (results scenario_end) - okReplies scenario_replies.
Proof.
  apply (X8_success_counts_store_replies "tenant" "text" "patch" scenario 0 ∅ ∅
           scenario_replies).
  vm_compute. reflexivity.
Defined.

(** X9: a batch on which the iterator never raises comes to its end,
    whatever the store answers.  From every state such a batch can reach,
    answering the operations that wait for the store, each with the answer
    chosen for its index, leads to a state in which the final callback has
    run and the status record is COMPLETE with every operation counted. *)
Theorem X9_batch_comes_to_its_end tenantid textid patchid ops
    (answer : nat → option DatabaseError * JSValue) s :
  (∀ op, op ∈ ops → raises tenantid textid op = false) →
  reachable tenantid textid patchid ops s →
  ∃ es s' d,
    run tenantid textid patchid es s = Some s'
    ∧ (∀ e, e ∈ es → ∃ i, e = Reply i (answer i).1 (answer i).2)
    ∧ finished s' = true
    ∧ heap s' !! details s' = Some d
    ∧ status d = COMPLETE
    ∧ success d + error d = length ops.
Proof.
  intros Hnr Hr.
  destruct (batch_completes tenantid textid patchid ops Hnr answer s Hr)
    as (es & s' & Hrun & Hfin & Hes).
  assert (Hr' : reachable tenantid textid patchid ops s').
  { clear Hes Hfin. revert s Hr Hrun. induction es as [|e es IH]; intros s Hr; simpl.
    - by intros [= <-].
    - destruct (step tenantid textid patchid e s) as [s1|] eqn:Hstep; simpl; [| done].
      apply IH. by eapply reachable_step. }
  destruct (reachable_Inv _ _ _ _ _ Hr') as [HI _].
  destruct (inv_heap ops s' HI) as (d & Hd & Hs & He & Hst).
  rewrite Hfin in Hst.
  pose proof (finished_all_settled ops s' HI Hfin) as Hall.
  exists es, s', d. repeat split; try done.
  unfold settled in Hall. lia.
Qed.

(** A store that answers every call with an empty object. *)
Definition always_ok (i : nat) : option DatabaseError * JSValue := (None, JObj []).

Lemma X9_batch_comes_to_its_end_witness :
  ∃ es s' d,
    run "tenant" "text" "patch" es scenario_start = Some s'
    ∧ (∀ e, e ∈ es → ∃ i, e = Reply i (always_ok i).1 (always_ok i).2)
    ∧ finished s' = true
    ∧ heap s' !! details s' = Some d
    ∧ status d = COMPLETE
    ∧ success d + error d = length scenario.
Proof.
  apply (X9_batch_comes_to_its_end "tenant" "text" "patch" scenario
           always_ok scenario_start).
  - intros op Hop. apply list_elem_of_In in Hop. simpl in Hop.
    destruct Hop as [<- | [<- | [<- | []]]]; reflexivity.
  - exists 0%N, ∅, ∅, []. reflexivity.
Defined.

(** X6: a batch sends nothing before its final callback has run; once it
    has, the messages sent are those of the result array, slot by slot in
    the order of the array. *)
Theorem X6_messages_only_at_the_end tenantid textid patchid ops s :
  reachable tenantid textid patchid ops s →
  (finished s = false → sent s = [])
  ∧ (finished s = true → sent s = forEach textid (results s)).
Proof.
  intros Hr. pose proof (reachable_Sent _ _ _ _ _ Hr) as HS.
  unfold Sent in HS. split; intros Hf; by rewrite Hf in HS.
Qed.

Lemma X6_messages_only_at_the_end_witness :
  ((finished scenario_start = false → sent scenario_start = [])
   ∧ (finished scenario_start = true →
      sent scenario_start = forEach "text" (results scenario_start)))
  ∧ ((finished scenario_end = false → sent scenario_end = [])
     ∧ (finished scenario_end = true →
        sent scenario_end = forEach "text" (results scenario_end)))
  ∧ finished scenario_start = false
  ∧ finished scenario_end = true.
Proof.
  split; [| split; [| split]].
  - apply (X6_messages_only_at_the_end "tenant" "text" "patch" scenario scenario_start).
    exists 0%N, ∅, ∅, []. reflexivity.
  - apply (X6_messages_only_at_the_end "tenant" "text" "patch" scenario scenario_end).
    exists 0%N, ∅, ∅, scenario_replies. vm_compute. reflexivity.
  - vm_compute. reflexivity.
  - vm_compute. reflexivity.
Defined.

(** In the scenario the three messages appear with the last reply, in the
    order of the batch and not of the replies. *)
Example scenario_messages :
  sent scenario_start = []
  ∧ sent <$> run "tenant" "text" "patch" [Reply 1 None (JObj [("metadata", JObj [("value", JStr "x")])])]
               scenario_start
    = Some []
  ∧ sent scenario_end
    = [("text:update:unknown:unknown",
        {| resp_id := "text"; resp_error := None; resp_value := None;
           resp_classes := Some (JArr [JStr "c1"; JStr "c2"]) |});
       ("text:update:unknown:unknown",
        {| resp_id := "text"; resp_error := None; resp_value := Some (JStr "x");
           resp_classes := None |});
       ("text:update:nope:bogus",
        {| resp_id := "text";
           resp_error := Some (PatchError (invalid "Unsupported operation") op_bogus);
           resp_value := None; resp_classes := None |})].
Proof. vm_compute. repeat split; reflexivity. Qed.

(** ** Which outcomes are published *)

Lemma socketResponseBuilder_error textid e operation :
  ∃ r, socketResponseBuilder textid (PatchError e operation) = Some (Some r)
     ∧ resp_id r = textid
     ∧ resp_error r = Some (PatchError e operation).
Proof.
  unfold socketResponseBuilder.
  destruct (hasDeep operation ["value"; "value"]) eqn:H2.
  - destruct (hasDeep_get2 _ _ _ H2) as (v & vv & -> & Hvv).
    simpl. rewrite Hvv. simpl. eauto.
  - destruct (hasDeep operation ["value"]) eqn:H1; [| eauto].
    assert (is_Some (get operation "value")) as [v ->].
    { apply hasOwn_get. simpl in H1. by apply andb_true_iff in H1 as [-> _]. }
    simpl. eauto.
Qed.

(** Whether the body of the loop raises on an outcome: in
    [socketResponseBuilder], or, when there is a payload, in
    [socketMessageNameBuilder(result.operation)]. *)
Definition throws (textid : string) (result : Outcome) : bool :=
  match socketResponseBuilder textid result with
  | None => true
  | Some None => false
  | Some (Some _) =>
      match operationOf result ≫= socketMessageNameBuilder with
      | None => true
      | Some _ => false
      end
  end.

Lemma forEach_cons textid result rest :
  forEach textid (Some result :: rest)
  = match socketResponseBuilder textid result with
    | None => []
    | Some None => forEach textid rest
    | Some (Some response) =>
        match operationOf result ≫= socketMessageNameBuilder with
        | None => []
        | Some name => ("text:update:" +:+ name, response) :: forEach textid rest
        end
    end.
Proof. reflexivity. Qed.

(** On an error the loop raises only when the verb of the wrapped
    operation cannot be converted to a string. *)
Lemma throws_error textid e operation :
  throws textid (PatchError e operation)
  = bool_decide (verb operation = None).
Proof.
  unfold throws.
  destruct (socketResponseBuilder_error textid e operation) as (r & -> & _).
  simpl. rewrite socketMessageNameBuilder_parts.
  by destruct (verb operation).
Qed.

(** On a success the loop raises when the result is [undefined] or
    [null]. *)
Lemma throws_empty textid v :
  v = JUndefined ∨ v = JNull → throws textid (Result v) = true.
Proof. by intros [-> | ->]. Qed.

Lemma forEach_reports textid data : ∀ j e operation,
  (∀ i r, i ≤ j → data !! i = Some (Some r) → throws textid r = false) →
  data !! j = Some (Some (PatchError e operation)) →
  ∃ name response,
    socketMessageNameBuilder operation = Some name
    ∧ ("text:update:" +:+ name, response) ∈ forEach textid data
    ∧ resp_id response = textid
    ∧ resp_error response = Some (PatchError e operation).
Proof.
  induction data as [|[result|] data IH]; intros j e operation Hok Hj.
  - done.
  - pose proof (Hok 0 result (Nat.le_0_l j) eq_refl) as Hhead.
    unfold throws in Hhead. rewrite forEach_cons.
    destruct j as [|j]; simpl in Hj.
    + injection Hj as ->.
      destruct (socketResponseBuilder_error textid e operation) as (r & Hb & Hid & Herr).
      rewrite Hb in *. simpl in *.
      destruct (socketMessageNameBuilder operation) as [name|]; [| done].
      exists name, r. split; [done |]. split; [by left | done].
    + destruct (IH j e operation) as (name & response & Hn & Hin & Hid & Herr);
        [| done |].
      { intros i r Hi. apply (Hok (S i) r). lia. }
      exists name, response. split; [done |]. split; [| done].
      destruct (socketResponseBuilder textid result) as [[r|]|]; [| done | done].
      destruct (operationOf result ≫= socketMessageNameBuilder); [| done].
      by right.
  - destruct j as [|j]; simpl in Hj; [done |].
    destruct (IH j e operation) as (name & response & Hn & Hin & Hid & Herr);
      [| done |].
    { intros i r Hi. apply (Hok (S i) r). lia. }
    exists name, response. by repeat split.
Qed.

(** X13: a failed operation is reported unless the loop has raised by
    then.  When the final callback has run and its loop raises on no
    outcome up to and including an error of the result array, that error
    has its message among those sent: it is named after the operation the
    error wraps and carries the id of the text and the error itself. *)
Theorem X13_every_failure_is_reported tenantid textid patchid ops s j e operation :
  reachable tenantid textid patchid ops s →
  finished s = true →
  (∀ i r, i ≤ j → results s !! i = Some (Some r) → throws textid r = false) →
  results s !! j = Some (Some (PatchError e operation)) →
  ∃ name response,
    socketMessageNameBuilder operation = Some name
    ∧ ("text:update:" +:+ name, response) ∈ sent s
    ∧ resp_id response = textid
    ∧ resp_error response = Some (PatchError e operation).
Proof.
  intros Hr Hf Hok Hj.
  pose proof (reachable_Sent _ _ _ _ _ Hr) as HS. unfold Sent in HS.
  rewrite Hf in HS. rewrite HS. by apply (forEach_reports textid (results s) j).
Qed.

Lemma X13_every_failure_is_reported_witness :
  ∃ name response,
    socketMessageNameBuilder op_bogus = Some name
    ∧ ("text:update:" +:+ name, response) ∈ sent scenario_end
    ∧ resp_id response = "text"
    ∧ resp_error response
      = Some (PatchError (invalid "Unsupported operation") op_bogus).
Proof.
  apply (X13_every_failure_is_reported "tenant" "text" "patch" scenario scenario_end 2).
  - exists 0%N, ∅, ∅, scenario_replies. vm_compute. reflexivity.
  - vm_compute. reflexivity.
  - intros [|[|[|i]]] r _ Hi; vm_compute in Hi; try discriminate;
      injection Hi as <-; vm_compute; reflexivity.
  - vm_compute. reflexivity.
Defined.

(** A batch of two unsupported operations, the first with a verb that
    cannot be converted to a string: the loop raises on the first error,
    and the second error is not reported. *)
Example unreported_failure :
  let ops := [JObj [("op", JObj [("toString", JNum 1)]); ("path", JStr "/nope")];
              op_bogus] in
  let s := editText "tenant" "text" "patch" 0 ∅ ∅ ops in
  finished s = true
  ∧ results s !! 1 = Some (Some (PatchError (invalid "Unsupported operation") op_bogus))
  ∧ patchStatus "patch" s = Some {| status := COMPLETE; success := 0; error := 2 |}
  ∧ sent s = [].
Proof. vm_compute. repeat split; reflexivity. Qed.

Lemma forEach_stops textid pre result rest :
  throws textid result = true →
  forEach textid (pre ++ Some result :: rest) = forEach textid pre.
Proof.
  intros Hv. induction pre as [|[r|] pre IH].
  - simpl app. rewrite forEach_cons. unfold throws in Hv.
    destruct (socketResponseBuilder textid result) as [[response|]|]; [| done | done].
    by destruct (operationOf result ≫= socketMessageNameBuilder).
  - change ((Some r :: pre) ++ Some result :: rest)
      with (Some r :: (pre ++ Some result :: rest)).
    rewrite !forEach_cons, IH. done.
  - exact IH.
Qed.

(** X14: a success that is [undefined] or [null] silences the rest of the
    batch.  When the store has answered an operation without an error and
    without a result, the final callback sends the messages of the slots
    before that one and nothing for that slot or for any later slot, the
    errors among them included. *)
Theorem X14_empty_result_silences_the_rest tenantid textid patchid ops s pre v rest :
  reachable tenantid textid patchid ops s →
  finished s = true →
  results s = pre ++ Some (Result v) :: rest →
  v = JUndefined ∨ v = JNull →
  sent s = forEach textid pre.
Proof.
  intros Hr Hf Hres Hv.
  pose proof (reachable_Sent _ _ _ _ _ Hr) as HS. unfold Sent in HS.
  rewrite Hf, Hres in HS. rewrite HS.
  apply forEach_stops. by apply throws_empty.
Qed.

(** The scenario with a store that answers the metadata update with no
    result at all. *)
Definition scenario_no_result : list Input :=
  [Reply 0 None (JObj [("classes", JArr [JStr "c1"; JStr "c2"])]);
   Reply 1 None JUndefined].

Definition scenario_silenced : Exec :=
  default scenario_start (run "tenant" "text" "patch" scenario_no_result scenario_start).

Lemma X14_empty_result_silences_the_rest_witness :
  sent scenario_silenced
  = forEach "text" [Some (Result (JObj [("classes", JArr [JStr "c1"; JStr "c2"])]))].
Proof.
  apply (X14_empty_result_silences_the_rest "tenant" "text" "patch" scenario
           scenario_silenced
           [Some (Result (JObj [("classes", JArr [JStr "c1"; JStr "c2"])]))]
           JUndefined
           [Some (PatchError (invalid "Unsupported operation") op_bogus)]).
  - exists 0%N, ∅, ∅, scenario_no_result. vm_compute. reflexivity.
  - vm_compute. reflexivity.
  - vm_compute. reflexivity.
  - by left.
Defined.

(** * [createText]

    The handler checks the body, asks the store to create the text and, in
    the callback, renames [_id] to [id] on the created document before it
    publishes and returns it. *)

(** [text.k = v] on the own properties of an object: an existing property
    keeps its place, a new one goes to the end. *)
Fixpoint setProp (k : string) (v : JSValue) (fields : list (string * JSValue))
    : list (string * JSValue) :=
  match fields with
  | [] => [(k, v)]
  | (k', v') :: rest =>
      if String.eqb k k' then (k, v) :: rest else (k', v') :: setProp k v rest
  end.

(** [delete text.k] *)
Fixpoint deleteProp (k : string) (fields : list (string * JSValue))
    : list (string * JSValue) :=
  match fields with
  | [] => []
  | (k', v') :: rest =>
      if String.eqb k k' then deleteProp k rest else (k', v') :: deleteProp k rest
  end.

(** [Object.keys(v).length] for a value that is not [undefined] or [null];
    a number or a boolean has no keys. *)
Definition keysLength (v : JSValue) : nat :=
  match v with
  | JObj fields => length (remove_dups fields.*1)
  | JArr elems => length elems
  | JStr s => String.length s
  | _ => 0
  end.

(** The calls on [responses] that the handler makes. *)
Inductive HttpResponse : Type :=
| badrequest (message : string)
| newitem (item : JSValue) (template : string) (params : list (string * JSValue))
| responseError (err : DatabaseError).

(** What the callback of the store does, in order: a socket message with
    its [attributes] and [err], the hand-over of an error to
    [dberrors.handle] with the response its callback would give, a
    response. *)
Inductive Effect : Type :=
| SocketSend (name : string) (attributes : JSValue) (err : option DatabaseError)
| DbErrorsHandle (err : DatabaseError) (ignore : list nat) (message : string)
    (returnResponse : HttpResponse)
| Respond (r : HttpResponse).

(** [createText] up to the call of the store: the response it gives at
    once, or the arguments of [db.createText]. *)
Definition createText (tenantid : string) (textattrs : JSValue)
    : HttpResponse + string * JSValue :=
  if negb (truthy textattrs) || (keysLength textattrs =? 0)%nat
  then inl (badrequest "Missing request body")
  else inr (tenantid, textattrs).

(** [httpstatus.BAD_REQUEST] *)
Definition BAD_REQUEST : nat := 400.

(** The callback [returnNewTest]; [location] is [req.baseUrl +
    req.route.path], and the store answers with an error or with the
    created document, an object. *)
Definition returnNewTest (tenantid : string) (textattrs : JSValue) (location : string)
    (answer : DatabaseError + list (string * JSValue)) : list Effect :=
  match answer with
  | inl err =>
      [SocketSend "text:create" textattrs (Some err);
       DbErrorsHandle err [BAD_REQUEST]
         "Error occurred while attempting to create text." (responseError err)]
  | inr text =>
      let text := setProp "id" (default JUndefined (assoc "_id" text)) text in
      let text := deleteProp "_id" text in
      [SocketSend "text:create" (JObj text) None;
       Respond (newitem (JObj text) location
                  [(":tenantid", JStr tenantid);
                   (":textid", default JUndefined (assoc "id" text))])]
  end.

Lemma assoc_setProp k v fields k' :
  assoc k' (setProp k v fields) = if String.eqb k' k then Some v else assoc k' fields.
Proof.
  induction fields as [|[k0 v0] rest IH]; simpl.
  - by destruct (String.eqb k' k).
  - destruct (String.eqb_spec k k0) as [-> | Hne]; simpl.
    + by destruct (String.eqb k' k0).
    + rewrite IH. destruct (String.eqb_spec k' k0) as [-> | Hne']; [| done].
      destruct (String.eqb_spec k0 k); [congruence | done].
Qed.

Lemma assoc_deleteProp k fields k' :
  assoc k' (deleteProp k fields) = if String.eqb k' k then None else assoc k' fields.
Proof.
  induction fields as [|[k0 v0] rest IH]; simpl.
  - by destruct (String.eqb k' k).
  - destruct (String.eqb_spec k k0) as [-> | Hne]; simpl.
    + rewrite IH. destruct (String.eqb_spec k' k0); [done | done].
    + rewrite IH. destruct (String.eqb_spec k' k0) as [-> | Hne']; [| done].
      destruct (String.eqb_spec k0 k); [congruence | done].
Qed.

(** X16: when the store has created the document, [createText] publishes
    and returns one and the same object; its [id] is the [_id] of the
    document, it has no [_id] of its own any more, every other property is
    as the store gave it, and the [:textid] of the location is that [id]. *)
Theorem X16_created_text_has_id tenantid textattrs location text :
  ∃ item,
    returnNewTest tenantid textattrs location (inr text)
    = [SocketSend "text:create" (JObj item) None;
       Respond (newitem (JObj item) location
                  [(":tenantid", JStr tenantid);
                   (":textid", default JUndefined (assoc "_id" text))])]
    ∧ get (JObj item) "id" = get (JObj text) "_id"
    ∧ hasOwn (JObj item) "_id" = false
    ∧ ∀ k, k ≠ "id" → k ≠ "_id" → get (JObj item) k = get (JObj text) k.
Proof.
  exists (deleteProp "_id" (setProp "id" (default JUndefined (assoc "_id" text)) text)).
  assert (Hid : assoc "id" (deleteProp "_id"
                  (setProp "id" (default JUndefined (assoc "_id" text)) text))
                = Some (default JUndefined (assoc "_id" text))).
  { by rewrite assoc_deleteProp, assoc_setProp. }
  split; [| split; [| split]].
  - unfold returnNewTest. by rewrite Hid.
  - simpl. rewrite Hid. simpl. by destruct (assoc "_id" text).
  - simpl. by rewrite assoc_deleteProp.
  - intros k Hk Hk'. simpl. rewrite assoc_deleteProp, assoc_setProp.
    destruct (String.eqb_spec k "_id"); [done |].
    by destruct (String.eqb_spec k "id").
Qed.

(** A document as the store gives it, and what becomes of it. *)
Example created_text :
  returnNewTest "tenant" (JObj [("value", JStr "hello")]) "/api/tenant/texts"
    (inr [("_id", JStr "t1"); ("value", JStr "hello"); ("_rev", JStr "1-a")])
  = [SocketSend "text:create"
       (JObj [("value", JStr "hello"); ("_rev", JStr "1-a"); ("id", JStr "t1")]) None;
     Respond (newitem
                (JObj [("value", JStr "hello"); ("_rev", JStr "1-a"); ("id", JStr "t1")])
                "/api/tenant/texts"
                [(":tenantid", JStr "tenant"); (":textid", JStr "t1")])].
Proof. by vm_compute. Qed.

Lemma keysLength_property k v rest : keysLength (JObj ((k, v) :: rest)) ≠ 0.
Proof.
  unfold keysLength. intros H%length_zero_iff_nil.
  assert (k ∈ remove_dups (((k, v) :: rest).*1)) as Hin
    by (apply elem_of_remove_dups; by left).
  rewrite H in Hin. by apply elem_of_nil in Hin.
Qed.

(** X17: [createText] asks the store exactly when the body has something
    in it.  A body that is missing, [null], an object without properties or
    an empty array is answered "Missing request body" and the store is not
    called; an object with a property and a non-empty array go to the
    store unchanged, with the tenant of the request. *)
Theorem X17_empty_body_rejected tenantid :
  createText tenantid JUndefined = inl (badrequest "Missing request body")
  ∧ createText tenantid JNull = inl (badrequest "Missing request body")
  ∧ (∀ fields,
       createText tenantid (JObj fields)
       = match fields with
         | [] => inl (badrequest "Missing request body")
         | _ => inr (tenantid, JObj fields)
         end)
  ∧ (∀ elems,
       createText tenantid (JArr elems)
       = match elems with
         | [] => inl (badrequest "Missing request body")
         | _ => inr (tenantid, JArr elems)
         end).
Proof.
  split; [done |]. split; [done |]. split.
  - intros [|[k v] rest]; [done |]. unfold createText.
    pose proof (keysLength_property k v rest) as Hk.
    by destruct (Nat.eqb_spec (keysLength (JObj ((k, v) :: rest))) 0).
  - by intros [|x rest].
Qed.

(** * The production configuration

    [config/environment/production.js] picks the address and the port of
    the server from the application environment and the process
    environment. *)

(** [a || b] *)
Definition or_else (a b : JSValue) : JSValue := if truthy a then a else b.

(** [appEnv.bind], [appEnv.port] and the four variables of [process.env]
    that the file reads; a variable that is not set is [undefined]. *)
Record Environment : Type := {
  appEnv_bind : JSValue;
  appEnv_port : JSValue;
  OPENSHIFT_NODEJS_IP : JSValue;
  IP : JSValue;
  OPENSHIFT_NODEJS_PORT : JSValue;
  PORT : JSValue
}.

Definition production_ip (env : Environment) : JSValue :=
  or_else (or_else (or_else (appEnv_bind env) (OPENSHIFT_NODEJS_IP env)) (IP env))
    JUndefined.

Definition production_port (env : Environment) : JSValue :=
  or_else (or_else (or_else (appEnv_port env) (OPENSHIFT_NODEJS_PORT env)) (PORT env))
    (JNum 8080).

(** The first truthy value of a list, if any. *)
Definition firstTruthy (candidates : list JSValue) : option JSValue :=
  List.find truthy candidates.

(** X15: the production port is the first truthy one of [appEnv.port],
    [OPENSHIFT_NODEJS_PORT] and [PORT], and 8080 when none is; it is never
    falsy.  The production ip is the first truthy one of [appEnv.bind],
    [OPENSHIFT_NODEJS_IP] and [IP], and [undefined] when none is; it is
    never another falsy value, such as an empty string. *)
Theorem X15_production_port_and_ip env :
  production_port env
  = default (JNum 8080)
      (firstTruthy [appEnv_port env; OPENSHIFT_NODEJS_PORT env; PORT env])
  ∧ truthy (production_port env) = true
  ∧ production_ip env
    = default JUndefined
        (firstTruthy [appEnv_bind env; OPENSHIFT_NODEJS_IP env; IP env])
  ∧ (truthy (production_ip env) = true ∨ production_ip env = JUndefined).
Proof.
  unfold production_port, production_ip, firstTruthy, or_else. simpl.
  destruct (truthy (appEnv_port env)) eqn:H1; simpl; rewrite ?H1;
    destruct (truthy (OPENSHIFT_NODEJS_PORT env)) eqn:H2; simpl; rewrite ?H1, ?H2;
    destruct (truthy (PORT env)) eqn:H3; simpl; rewrite ?H1, ?H2, ?H3;
    destruct (truthy (appEnv_bind env)) eqn:H4; simpl; rewrite ?H4;
    destruct (truthy (OPENSHIFT_NODEJS_IP env)) eqn:H5; simpl; rewrite ?H4, ?H5;
    destruct (truthy (IP env)) eqn:H6; simpl; rewrite ?H4, ?H5, ?H6;
    repeat split; auto.
Qed.

(** * A status record that has expired *)

(** X18: a reply of the store brings the status record back.  Whatever
    time has passed, and even when the entry of the cache had expired, at
    the instant the store answers an operation of the batch [patchStatus]
    returns the status record again, with the counts as they stand. *)
Theorem X18_reply_restores_the_record tenantid textid patchid ops s i err result s' :
  reachable tenantid textid patchid ops s →
  step tenantid textid patchid (Reply i err result) s = Some s' →
  ∃ d, patchStatus patchid s' = Some d
     ∧ heap s' !! details s' = Some d
     ∧ success d + error d = settled (results s').
Proof.
  intros Hr Hstep.
  destruct (step_Reply_wrote _ _ _ _ _ _ _ _ Hstep) as (Hn & Hd & Hc).
  pose proof (reachable_step _ _ _ _ _ _ _ Hr Hstep) as Hr'.
  destruct (reachable_Inv _ _ _ _ _ Hr') as [HI _].
  destruct (inv_heap ops s' HI) as (d & Hheap & Hs & He & _).
  exists d. split; [| split; [done | unfold settled; lia]].
  unfold patchStatus, cache_get. rewrite Hc, Hn. unfold cache_put.
  rewrite lookup_insert_eq. simpl.
  assert (Hlt : (now s <? now s + 5 * MINUTE)%N = true)
    by (apply N.ltb_lt; change (5 * MINUTE)%N with 300000%N; lia).
  rewrite Hlt. simpl. by rewrite <- Hd.
Qed.

(** The scenario with a store that takes ten minutes for its first
    answer. *)
Definition scenario_late : Exec :=
  default scenario_start
    (run "tenant" "text" "patch" [Elapse 600000] scenario_start).

Definition scenario_late_answered : Exec :=
  default scenario_late
    (step "tenant" "text" "patch" (Reply 0 None (JObj [])) scenario_late).

Example status_lost_meanwhile : patchStatus "patch" scenario_late = None.
Proof. by vm_compute. Qed.

Lemma X18_reply_restores_the_record_witness :
  ∃ d, patchStatus "patch" scenario_late_answered = Some d
     ∧ heap scenario_late_answered !! details scenario_late_answered = Some d
     ∧ success d + error d = settled (results scenario_late_answered).
Proof.
  apply (X18_reply_restores_the_record "tenant" "text" "patch" scenario scenario_late
           0 None (JObj [])).
  - exists 0%N, ∅, ∅, [Elapse 600000]. vm_compute. reflexivity.
  - vm_compute. reflexivity.
Defined.
